(** * MapReduce word-frequency analyzer: a shallow embedding

    The development follows [mapreduce_word_analyzer.py], class
    [MapReduceWordCounter]: [clean_text], [split_text], [map_function],
    [reduce_function] and [mapreduce].

    A Python [str] is a sequence of Unicode code points, so a text is a
    [list N].  The analyzer never inspects a code point itself: it asks the
    Python runtime ([re]'s classes [\w], [\s], [\d], [str.lower],
    [str.split]).  Those tables are not part of the repository; they are a
    parameter of the model ([UnicodeData]).  Results that hold for every
    text are proved for every table; concrete runs use [py], which
    reproduces CPython's tables on the ASCII range and on the two code
    points U+0130 and U+0307. *)

From Stdlib Require Import ZArith NArith Ascii String List Lia.
From stdpp Require Import base option list gmap fin_maps sorting.

Local Open Scope Z_scope.

(** ** Texts *)

Definition SPACE : N := 32%N.
Definition UNDERSCORE : N := 95%N.

(** A string literal of the source, as code points (ASCII literals only). *)
Definition of_string (s : string) : list N :=
  map N_of_ascii (list_ascii_of_string s).

(** ** The runtime's character tables *)

Record UnicodeData := {
  (** [str.isspace]; the same predicate drives [\s] and [str.split()]. *)
  isspace : N -> bool;
  (** [str.isalnum]; [\w] is [isalnum] or the underscore. *)
  isalnum : N -> bool;
  (** [str.isdecimal]; this is [\d] on [str] patterns. *)
  isdecimal : N -> bool;
  (** [str.lower]: a function of the whole text (the result may be longer
      than the argument, and capital sigma depends on its context). *)
  lower : list N -> list N;
  (** U+0020 is white space. *)
  isspace_SPACE : isspace SPACE = true
}.

(** ** Exceptions and results *)

(** [ZeroDivisionError] and [ValueError] are the built-in exceptions the
    analyzer can raise.  [ConfigurationError] is the kind the design
    document names for a non-positive worker count; no statement of the
    source raises it. *)
Inductive exception := ZeroDivisionError | ValueError | ConfigurationError.

Inductive result (A : Type) :=
| Ok (a : A)
| Raise (e : exception).
Arguments Ok {A} a.
Arguments Raise {A} e.

Definition result_bind {A B} (f : A -> result B) (m : result A) : result B :=
  match m with
  | Ok a => f a
  | Raise e => Raise e
  end.

#[global] Instance result_mbind : MBind result := @result_bind.
#[global] Instance result_mret : MRet result := @Ok.

(** ** Python built-ins used by the analyzer *)

(** [a // b] on [int]: floor division, [ZeroDivisionError] when [b = 0]. *)
Definition floordiv (a b : Z) : result Z :=
  if b =? 0 then Raise ZeroDivisionError else Ok (a / b).

(** [range(n)]: empty when [n <= 0]. *)
Definition range (n : Z) : list Z := map Z.of_nat (seq 0 (Z.to_nat n)).

(** [len(l)] *)
Definition len {A} (l : list A) : Z := Z.of_nat (length l).

(** A slice bound as Python normalises it: negative bounds count from the
    end, and everything is clamped to [0, len]. *)
Definition slice_bound (n i : Z) : Z :=
  if i <? 0 then Z.max 0 (i + n) else Z.min i n.

(** [l[start:stop]] *)
Definition slice {A} (l : list A) (start stop : Z) : list A :=
  let s := slice_bound (len l) start in
  let e := slice_bound (len l) stop in
  take (Z.to_nat (e - s)) (drop (Z.to_nat s) l).

(** [sep.join(parts)] *)
Fixpoint join (sep : list N) (parts : list (list N)) : list N :=
  match parts with
  | [] => []
  | [p] => p
  | p :: ps => p ++ sep ++ join sep ps
  end.

(** The futures of [as_completed] come back in completion order, which the
    thread pool decides.  [order] is the scheduler's choice: at each step
    its head, modulo the number of futures still pending, is the position
    of the future that completes next.  Every [order] gives a completion
    order and every completion order is given by some [order]. *)
Fixpoint completion {A} (n : nat) (order : list nat) (pending : list A)
  : list A :=
  match n with
  | O => []
  | S n' =>
      let k := (hd 0%nat order mod length pending)%nat in
      match pending !! k with
      | Some x => x :: completion n' (tl order) (delete k pending)
      | None => []
      end
  end.

Definition as_completed {A} (order : list nat) (futures : list A) : list A :=
  completion (length futures) order futures.

(** ** The analyzer *)

(** The stop words of [map_function], a [set] literal in the source. *)
Definition stop_words : gset (list N) :=
  list_to_set (map of_string
    ["the"; "a"; "an"; "and"; "or"; "but"; "in"; "on"; "at";
     "to"; "for"; "of"; "with"; "by"; "from"; "up"; "about";
     "into"; "through"; "during"; "before"; "after"; "above";
     "below"; "between"; "among"; "is"; "are"; "was"; "were";
     "be"; "been"; "being"; "have"; "has"; "had"; "do"; "does";
     "did"; "will"; "would"; "should"; "could"; "can"; "may";
     "might"; "must"; "shall"; "i"; "you"; "he"; "she"; "it";
     "we"; "they"; "them"; "their"; "this"; "that"; "these";
     "those"; "not"; "no"; "yes"; "all"; "any"; "some"; "each";
     "every"; "most"; "more"; "less"; "much"; "many"; "few";
     "little"; "big"; "small"; "large"; "great"; "good"; "bad";
     "new"; "old"; "first"; "last"; "next"; "same"; "other"]%string).

Section Analyzer.
Context (U : UnicodeData).

(** [text.split()] with no argument: the maximal runs of characters that
    are not white space.  [cur] is the run being read, last character
    first. *)
Fixpoint split_from (cur : list N) (text : list N) : list (list N) :=
  match text with
  | [] => match cur with [] => [] | _ => [reverse cur] end
  | c :: rest =>
      if isspace U c then
        match cur with
        | [] => split_from [] rest
        | _ => reverse cur :: split_from [] rest
        end
      else split_from (c :: cur) rest
  end.

Definition split (text : list N) : list (list N) := split_from [] text.

(** The class [\w]. *)
Definition re_word (c : N) : bool := isalnum U c || (c =? UNDERSCORE)%N.

(** [re.sub(r'[^\w\s]', ' ', text)] *)
Definition sub_not_word_space (text : list N) : list N :=
  map (fun c => if re_word c || isspace U c then c else SPACE) text.

(** [re.sub(r'\d+', ' ', text)]: every maximal run of decimal digits
    becomes one space.  [in_run] tells that the previous character
    belongs to the run already replaced. *)
Fixpoint sub_digit_runs (in_run : bool) (text : list N) : list N :=
  match text with
  | [] => []
  | c :: rest =>
      if isdecimal U c then
        if in_run then sub_digit_runs true rest
        else SPACE :: sub_digit_runs true rest
      else c :: sub_digit_runs false rest
  end.

Definition clean_text (text : list N) : list N :=
  let text := sub_not_word_space text in
  let text := sub_digit_runs false text in
  let text := lower U text in
  join [SPACE] (split text).

Definition split_text (text : list N) (num_chunks : Z)
  : result (list (list N)) :=
  let words := split text in
  chunk_size ← floordiv (len words) num_chunks;
  mret (map (fun i =>
               let start_idx := i * chunk_size in
               let end_idx :=
                 if i =? num_chunks - 1 then len words
                 else (i + 1) * chunk_size in
               join [SPACE] (slice words start_idx end_idx))
            (range num_chunks)).

(** The test of the loop in [map_function]. *)
Definition eligible (word : list N) : bool :=
  (3 <=? len word) && negb (bool_decide (word ∈ stop_words)).

Definition map_function (text_chunk : list N) : list (list N * Z) :=
  let words := split text_chunk in
  flat_map (fun word => if eligible word then [(word, 1)] else []) words.

(** Maximum worker count check of [ThreadPoolExecutor.__init__]. *)
Definition ThreadPoolExecutor (max_workers : Z) : result unit :=
  if max_workers <=? 0 then Raise ValueError else Ok tt.

(** The map phase of [mapreduce]: the value of [all_word_pairs] when the
    [with] block is left. *)
Definition map_phase (num_workers : Z) (order : list nat) (text : list N)
  : result (list (list N * Z)) :=
  let cleaned_text := clean_text text in
  text_chunks ← split_text cleaned_text num_workers;
  _ ← ThreadPoolExecutor num_workers;
  let map_futures := map map_function text_chunks in
  mret (concat (as_completed order map_futures)).

End Analyzer.

(** [word_freq[word] += count] on a [defaultdict(int)]: a missing key
    counts as zero and is created, also when [count] is zero. *)
Definition add_count (word_freq : gmap (list N) Z) (wc : list N * Z)
  : gmap (list N) Z :=
  <[wc.1 := default 0 (word_freq !! wc.1) + wc.2]> word_freq.

(** The result is a [dict]; two dicts are equal when they have the same
    keys with the same values, whatever the insertion order, so the table
    is a finite map. *)
Definition reduce_function (word_counts : list (list N * Z))
  : gmap (list N) Z :=
  foldl add_count ∅ word_counts.

(** [mapreduce]; the [print] calls and the timer do not touch the result
    and are left out. *)
Definition mapreduce (U : UnicodeData) (num_workers : Z) (order : list nat)
  (text : list N) : result (gmap (list N) Z) :=
  all_word_pairs ← map_phase U num_workers order text;
  mret (reduce_function all_word_pairs).

(** [sum(d.values())] *)
Definition sum_values (d : gmap (list N) Z) : Z :=
  map_fold (fun _ v acc => v + acc) 0 d.

(** ** CPython's tables on ASCII, U+0130 and U+0307

    [py_isspace] is CPython's white-space table in full.  The other three
    tables are CPython's on the code points below 128 and on U+0130 and
    U+0307; they are only ever applied to such code points below (the
    scenario, the concrete runs, and the two inputs on which [clean_text]
    departs from the design document).  Statements about every text are
    made for every [UnicodeData], or for those that are [ascii_exact]. *)

Definition in_range (lo hi c : N) : bool := ((lo <=? c) && (c <=? hi))%N.

(** The white-space code points of CPython ([_PyUnicode_IsWhitespace]). *)
Definition py_isspace (c : N) : bool :=
  in_range 9 13 c || in_range 28 32 c || (c =? 133)%N || (c =? 160)%N
  || (c =? 5760)%N || in_range 8192 8202 c || (c =? 8232)%N
  || (c =? 8233)%N || (c =? 8239)%N || (c =? 8287)%N || (c =? 12288)%N.

(** [0-9A-Za-z], and U+0130 LATIN CAPITAL LETTER I WITH DOT ABOVE; U+0307
    COMBINING DOT ABOVE is a mark and not alphanumeric. *)
Definition py_isalnum (c : N) : bool :=
  in_range 48 57 c || in_range 65 90 c || in_range 97 122 c || (c =? 304)%N.

Definition py_isdecimal (c : N) : bool := in_range 48 57 c.

(** Lower-casing of one code point: [A-Z] to [a-z], U+0130 to U+0069
    U+0307. *)
Definition py_lower_char (c : N) : list N :=
  if in_range 65 90 c then [(c + 32)%N]
  else if (c =? 304)%N then [105%N; 775%N]
  else [c].

Definition py_lower (text : list N) : list N := flat_map py_lower_char text.

Definition py : UnicodeData :=
  {| isspace := py_isspace; isalnum := py_isalnum;
     isdecimal := py_isdecimal; lower := py_lower;
     isspace_SPACE := eq_refl |}.

(** An ASCII code point. *)
Definition is_ascii (c : N) : Prop := (c < 128)%N.

(** Tables that agree with CPython's on ASCII text. *)
Record ascii_exact (U : UnicodeData) : Prop := {
  ascii_isspace : forall c, is_ascii c -> isspace U c = py_isspace c;
  ascii_isalnum : forall c, is_ascii c -> isalnum U c = py_isalnum c;
  ascii_isdecimal : forall c, is_ascii c -> isdecimal U c = py_isdecimal c;
  ascii_lower : forall s, Forall is_ascii s -> lower U s = py_lower s
}.

(** ** Vocabulary of the properties *)

Definition nonspace (U : UnicodeData) (c : N) : Prop := isspace U c = false.

(** A word: what [str.split()] returns, a non-empty run without white
    space. *)
Definition is_word (U : UnicodeData) (w : list N) : Prop :=
  w ≠ [] ∧ Forall (nonspace U) w.

(** What [split_from] returns when the text ends while [cur] is open. *)
Definition flush (cur : list N) : list (list N) :=
  match cur with [] => [] | _ => [reverse cur] end.

(** The pairs the loop of [map_function] appends for a list of words. *)
Definition emit (words : list (list N)) : list (list N * Z) :=
  flat_map (fun word => if eligible word then [(word, 1)] else []) words.

(** The sum of the counts paired with [word] in [word_counts]. *)
Definition total_count (word : list N) (word_counts : list (list N * Z)) : Z :=
  foldr (fun wc acc => if decide (wc.1 = word) then wc.2 + acc else acc)
        0 word_counts.

(** The sequential reference: the whole normalized text as one chunk, no
    partition and no thread pool. *)
Definition reference_count (U : UnicodeData) (text : list N)
  : gmap (list N) Z :=
  reduce_function (map_function U (clean_text U text)).

(** [\w] or [\s] in CPython's tables: what the first substitution of
    [clean_text] keeps. *)
Definition py_word_or_space (c : N) : bool :=
  py_isalnum c || (c =? UNDERSCORE)%N || py_isspace c.

(** An ASCII code point that no step of [clean_text] changes. *)
Definition settled (c : N) : Prop :=
  is_ascii c ∧ py_word_or_space c = true ∧ py_isdecimal c = false
  ∧ py_lower_char c = [c].

(** A lowercase ASCII letter. *)
Definition lower_letter (c : N) : bool := in_range 97 122 c.

(** A text made of non-empty tokens over [ok], one space between two
    tokens, nothing before the first or after the last. *)
Definition single_spaced (ok : N -> Prop) (text : list N) : Prop :=
  ∃ tokens, text = join [SPACE] tokens
            ∧ Forall (fun t => t ≠ [] ∧ Forall ok t) tokens.

(** What the first substitution of [clean_text] keeps: [\w] or [\s]. *)
Definition kept (U : UnicodeData) (c : N) : bool := re_word U c || isspace U c.

(** A character that the two substitutions of [clean_text] leave alone. *)
Definition passes (U : UnicodeData) (c : N) : Prop :=
  kept U c = true ∧ isdecimal U c = false.

(** Lower-casing does no harm on the class [K] of code points: it turns
    a text of characters of [K] that pass the substitutions into a text of
    characters of [S] that pass them, and it leaves a text of characters
    of [S] as it is.  In CPython [K] is every code point but U+0130, and
    [S] the code points that are their own lower case, capital sigma
    apart. *)
Record lower_closed (U : UnicodeData) (K S : N → Prop) : Prop := {
  closed_space : K SPACE ∧ S SPACE ∧ isdecimal U SPACE = false;
  closed_lower :
    ∀ s, Forall (fun c => K c ∧ passes U c) s →
         Forall (fun d => S d ∧ passes U d) (lower U s);
  closed_stable : ∀ s, Forall S s → lower U s = s
}.

(** ** Presentation: the table as a [dict], [visualize_top_words]

    [visualize_top_words] sorts the items of the table, and a [dict] hands
    out its items in insertion order.  [reduce_function] above keeps the
    table as a finite map, which is all that dict equality sees;
    [reduce_items] is the same loop on the items in insertion order. *)

(** [word_freq[word] += count] on the items of a [defaultdict(int)]: an
    existing key keeps its place, a new key goes to the end. *)
Fixpoint add_item (items : list (list N * Z)) (word : list N) (count : Z)
  : list (list N * Z) :=
  match items with
  | [] => [(word, 0 + count)]
  | (k, v) :: rest =>
      if decide (k = word) then (k, v + count) :: rest
      else (k, v) :: add_item rest word count
  end.

(** [reduce_function(word_counts).items()] *)
Definition reduce_items (word_counts : list (list N * Z))
  : list (list N * Z) :=
  foldl (fun items wc => add_item items wc.1 wc.2) [] word_counts.

(** One step of a stable sort by decreasing count: [x] stood before every
    element of [l] and stays before those whose count is not greater. *)
Fixpoint insert_desc (x : list N * Z) (l : list (list N * Z))
  : list (list N * Z) :=
  match l with
  | [] => [x]
  | y :: l' => if x.2 <? y.2 then y :: insert_desc x l' else x :: l
  end.

(** [sorted(items, key=lambda x: x[1], reverse=True)].  Python's sort is
    stable, also with [reverse=True]: items with equal counts keep their
    order. *)
Definition sorted_desc (items : list (list N * Z)) : list (list N * Z) :=
  foldr insert_desc [] items.

(** [top_words] in [visualize_top_words]: [sorted_words[:top_n]]. *)
Definition top_words (items : list (list N * Z)) (top_n : Z)
  : list (list N * Z) :=
  let sorted_words := sorted_desc items in
  slice sorted_words 0 top_n.

(** What [visualize_top_words] draws and prints: the lists [words] and
    [frequencies], or [None] when it returns at [if not top_words]. *)
Definition visualize_top_words (items : list (list N * Z)) (top_n : Z)
  : option (list (list N) * list Z) :=
  match top_words items top_n with
  | [] => None
  | tw => Some (map fst tw, map snd tw)
  end.

(** [rare_words] in [main]: the words of the table with the count one, in
    the order of the [dict]. *)
Definition rare_words (items : list (list N * Z)) : list (list N) :=
  map fst (filter (fun p : list N * Z => p.2 = 1) items).

(** The number of times [word] stands in [words]. *)
Definition occurrences (word : list N) (words : list (list N)) : Z :=
  len (filter (fun w => w = word) words).

(** Decreasing order of the counts. *)
Definition by_count_desc (a b : list N * Z) : Prop := b.2 ≤ a.2.

(** * Properties *)

(** ** [str.split] and [str.join] *)

Section SplitJoin.
Context (U : UnicodeData).

Lemma split_from_nil cur : split_from U cur [] = flush cur.
Proof. reflexivity. Qed.

Lemma split_from_space cur c rest :
  isspace U c = true →
  split_from U cur (c :: rest) = flush cur ++ split U rest.
Proof. intros Hc. simpl. rewrite Hc. by destruct cur. Qed.

Lemma split_from_word w cur rest :
  Forall (nonspace U) w →
  split_from U cur (w ++ rest) = split_from U (reverse w ++ cur) rest.
Proof.
  intros Hw. revert cur. induction Hw as [|c w Hc _ IH]; intros cur; [done|].
  simpl. rewrite Hc, IH, reverse_cons. by rewrite <- app_assoc.
Qed.

(** A white-space character ends the word being read, whatever follows. *)
Lemma split_from_app_space a c b cur :
  isspace U c = true →
  split_from U cur (a ++ c :: b) = split_from U cur a ++ split U b.
Proof.
  intros Hc. revert cur. induction a as [|x a IH]; intros cur.
  - by apply split_from_space.
  - simpl. destruct (isspace U x); [|apply IH].
    destruct cur; [apply IH|]. by rewrite IH.
Qed.

Lemma split_app_space a b :
  split U (a ++ SPACE :: b) = split U a ++ split U b.
Proof. apply split_from_app_space, isspace_SPACE. Qed.

Lemma flush_words cur : Forall (nonspace U) cur → Forall (is_word U) (flush cur).
Proof.
  intros Hcur. destruct cur as [|c cur]; [constructor|].
  repeat constructor.
  - intros Hnil. apply (f_equal length) in Hnil.
    rewrite length_reverse in Hnil. discriminate.
  - by apply Forall_reverse.
Qed.

Lemma split_from_words text cur :
  Forall (nonspace U) cur → Forall (is_word U) (split_from U cur text).
Proof.
  revert cur. induction text as [|c text IH]; intros cur Hcur.
  - by apply flush_words.
  - simpl. destruct (isspace U c) eqn:Hc.
    + destruct cur as [|d cur]; [by apply IH|].
      apply (Forall_app _ (flush (d :: cur))). split.
      * by apply flush_words.
      * by apply IH.
    + apply IH. by constructor.
Qed.

(** Every element of [split] is a word. *)
Lemma split_words text : Forall (is_word U) (split U text).
Proof. apply split_from_words. constructor. Qed.

Lemma split_word w : is_word U w → split U w = [w].
Proof.
  intros [Hne Hw]. unfold split.
  rewrite <- (app_nil_r w) at 1. rewrite split_from_word by done.
  rewrite app_nil_r. simpl.
  destruct (reverse w) eqn:Hr.
  - destruct Hne. apply (f_equal reverse) in Hr. by rewrite reverse_involutive in Hr.
  - by rewrite <- Hr, reverse_involutive.
Qed.

(** Splitting a space-joined list of words gives the words back. *)
Lemma split_join ws :
  Forall (is_word U) ws → split U (join [SPACE] ws) = ws.
Proof.
  induction 1 as [|w ws Hw Hws IH]; [done|].
  destruct ws as [|w' ws]; [by apply split_word|].
  change (join [SPACE] (w :: w' :: ws))
    with (w ++ SPACE :: join [SPACE] (w' :: ws)).
  by rewrite split_app_space, IH, split_word.
Qed.

(** Splitting a space-joined list of texts splits each text. *)
Lemma split_join_concat chunks :
  split U (join [SPACE] chunks) = concat (map (split U) chunks).
Proof.
  induction chunks as [|c chunks IH]; [done|].
  destruct chunks as [|c' chunks]; [simpl; by rewrite app_nil_r|].
  change (join [SPACE] (c :: c' :: chunks))
    with (c ++ SPACE :: join [SPACE] (c' :: chunks)).
  by rewrite split_app_space, IH.
Qed.

(** The characters of a split text come from the text. *)
Lemma split_from_chars text cur w c :
  w ∈ split_from U cur text → c ∈ w → c ∈ cur ∨ c ∈ text.
Proof.
  revert cur. induction text as [|x text IH]; intros cur Hw Hc.
  - destruct cur as [|d cur]; [by apply elem_of_nil in Hw|].
    simpl in Hw. apply list_elem_of_singleton in Hw. subst w.
    rewrite elem_of_reverse in Hc. by left.
  - simpl in Hw. destruct (isspace U x).
    + destruct cur as [|d cur].
      * destruct (IH _ Hw Hc) as [H|H]; [by left|right; by constructor].
      * apply elem_of_cons in Hw. destruct Hw as [->|Hw].
        -- rewrite elem_of_reverse in Hc. by left.
        -- destruct (IH _ Hw Hc) as [H|H]; [by apply elem_of_nil in H|].
           right; by constructor.
    + destruct (IH _ Hw Hc) as [H|H]; [|right; by constructor].
      apply elem_of_cons in H. destruct H as [->|H]; [right; constructor|by left].
Qed.

Lemma split_chars text w c : w ∈ split U text → c ∈ w → c ∈ text.
Proof.
  intros Hw Hc. destruct (split_from_chars _ _ _ _ Hw Hc) as [H|H]; [|done].
  by apply elem_of_nil in H.
Qed.

End SplitJoin.

Lemma join_part sep parts p c : p ∈ parts → c ∈ p → c ∈ join sep parts.
Proof.
  induction parts as [|q parts IH]; intros Hp Hc; [by apply elem_of_nil in Hp|].
  destruct parts as [|q' parts].
  - apply list_elem_of_singleton in Hp. by subst.
  - change (join sep (q :: q' :: parts)) with (q ++ sep ++ join sep (q' :: parts)).
    rewrite !elem_of_app. apply elem_of_cons in Hp as [->|Hp]; [by left|].
    right. right. by apply IH.
Qed.

(** The characters of a joined text are separators or come from a part. *)
Lemma join_chars sep parts c :
  c ∈ join sep parts → c ∈ sep ∨ ∃ p, p ∈ parts ∧ c ∈ p.
Proof.
  induction parts as [|p parts IH]; intros Hc; [by apply elem_of_nil in Hc|].
  destruct parts as [|p' parts].
  - right. exists p. split; [constructor|done].
  - change (join sep (p :: p' :: parts)) with (p ++ sep ++ join sep (p' :: parts)) in Hc.
    rewrite !elem_of_app in Hc. destruct Hc as [Hc|[Hc|Hc]].
    + right. exists p. split; [constructor|done].
    + by left.
    + destruct (IH Hc) as [H|(q & Hq & Hcq)]; [by left|].
      right. exists q. split; [by constructor|done].
Qed.

(** ** Slices and [split_text] *)

Lemma slice_inner {A} (l : list A) (a b : Z) :
  0 ≤ a ≤ b → b ≤ len l →
  slice l a b = take (Z.to_nat (b - a)) (drop (Z.to_nat a) l).
Proof.
  intros Hab Hb. unfold slice, slice_bound.
  destruct (Z.ltb_spec a 0), (Z.ltb_spec b 0); try lia.
  by rewrite !Z.min_l by lia.
Qed.

(** The first [k] slices of width [cs] are the first [k * cs] elements. *)
Lemma slices_prefix {A} (l : list A) (cs : Z) (k : nat) :
  0 ≤ cs → Z.of_nat k * cs ≤ len l →
  concat (map (fun i => slice l (i * cs) ((i + 1) * cs))
              (map Z.of_nat (seq 0 k)))
  = take (Z.to_nat (Z.of_nat k * cs)) l.
Proof.
  intros Hcs. induction k as [|k IH]; intros Hk; [done|].
  rewrite seq_S, !map_app, concat_app, IH by lia. simpl.
  rewrite app_nil_r, slice_inner by lia.
  rewrite take_take_drop. f_equal. lia.
Qed.

Section Partition.
Context (U : UnicodeData).

(** [split_text] cuts the words of the text into [num_chunks] consecutive
    parts and joins each part with spaces. *)
Lemma split_text_parts text (num_chunks : Z) :
  1 ≤ num_chunks →
  ∃ parts,
    split_text U text num_chunks = Ok (map (join [SPACE]) parts)
    ∧ len parts = num_chunks
    ∧ concat parts = split U text.
Proof.
  intros Hn. unfold split_text, floordiv.
  destruct (Z.eqb_spec num_chunks 0) as [|_]; [lia|]. simpl.
  set (words := split U text). set (cs := len words / num_chunks).
  assert (0 ≤ cs) as Hcs by (apply Z.div_pos; unfold len; lia).
  assert (num_chunks * cs ≤ len words) as Hle
    by (apply Z.mul_div_le; lia).
  exists (map (fun i => slice words (i * cs)
                         (if i =? num_chunks - 1 then len words
                          else (i + 1) * cs))
              (range num_chunks)).
  split; [by rewrite map_map|]. unfold range.
  split; [unfold len; rewrite !length_map, length_seq; lia|].
  assert (Z.to_nat num_chunks = S (Z.to_nat (num_chunks - 1))) as -> by lia.
  set (m := Z.to_nat (num_chunks - 1)).
  rewrite seq_S, !map_app, concat_app. simpl.
  assert (Z.of_nat m = num_chunks - 1) as Hm by lia.
  rewrite Hm, Z.eqb_refl, app_nil_r.
  rewrite (map_ext_in _ (fun i => slice words (i * cs) ((i + 1) * cs))).
  - rewrite slices_prefix by nia.
    rewrite slice_inner by nia.
    rewrite Hm, (take_ge (drop _ _)); [apply take_drop|].
    rewrite length_drop. unfold len. lia.
  - intros i Hi. apply in_map_iff in Hi as (j & <- & Hj).
    apply in_seq in Hj.
    destruct (Z.eqb_spec (Z.of_nat j) (num_chunks - 1)); [lia|done].
Qed.

(** The chunks of [split_text], split again, are the words of the text. *)
Lemma split_text_words text (num_chunks : Z) :
  1 ≤ num_chunks →
  ∃ chunks,
    split_text U text num_chunks = Ok chunks
    ∧ len chunks = num_chunks
    ∧ concat (map (split U) chunks) = split U text.
Proof.
  intros Hn. destruct (split_text_parts text _ Hn) as (parts & -> & Hlen & Hcat).
  exists (map (join [SPACE]) parts). split; [done|].
  split; [unfold len in *; by rewrite length_map|].
  rewrite <- Hcat, map_map. f_equal.
  assert (Forall (Forall (is_word U)) parts) as Hw
    by (apply Forall_concat; rewrite Hcat; apply split_words).
  clear Hcat Hlen. induction Hw as [|p parts Hp _ IH]; [done|].
  simpl. by rewrite split_join, IH.
Qed.

End Partition.

(** ** Completion order *)

Lemma completion_Permutation {A} (n : nat) (order : list nat) (l : list A) :
  length l = n → completion n order l ≡ₚ l.
Proof.
  revert order l. induction n as [|n IH]; intros order l Hl.
  - by destruct l.
  - simpl. set (k := (hd 0%nat order mod length l)%nat).
    assert (k < length l)%nat as Hk
      by (apply Nat.mod_upper_bound; lia).
    destruct (lookup_lt_is_Some_2 l k Hk) as [x Hx]. rewrite Hx.
    rewrite (delete_Permutation l k x Hx) at 2.
    constructor. apply IH. rewrite length_delete by eauto. lia.
Qed.

(** Whatever the scheduler does, [as_completed] yields every future once. *)
Lemma as_completed_Permutation {A} (order : list nat) (futures : list A) :
  as_completed order futures ≡ₚ futures.
Proof. by apply completion_Permutation. Qed.

(** Every completion order is the outcome of some scheduler choice. *)
Lemma as_completed_any {A} (finished futures : list A) :
  finished ≡ₚ futures → ∃ order, as_completed order futures = finished.
Proof.
  revert futures. induction finished as [|x finished IH]; intros futures Hp.
  - apply Permutation_nil_l in Hp. subst. by exists [].
  - assert (x ∈ futures) as Hx by (rewrite <- Hp; constructor).
    apply list_elem_of_lookup in Hx as [k Hk].
    pose proof (lookup_lt_Some _ _ _ Hk) as Hlt.
    destruct (IH (delete k futures)) as [order Ho].
    { apply (Permutation_cons_inv (a:=x)).
      by rewrite Hp, <- delete_Permutation. }
    exists (k :: order). unfold as_completed in *.
    destruct (length futures) as [|n] eqn:Hn; [lia|].
    simpl. rewrite Hn, Nat.mod_small, Hk by lia.
    f_equal. rewrite <- Ho, length_delete by eauto. f_equal. lia.
Qed.

Lemma concat_Permutation {A} (ls ks : list (list A)) :
  ls ≡ₚ ks → concat ls ≡ₚ concat ks.
Proof.
  induction 1 as [|l ls ks _ IH|l k ls|ls ks ms _ IH1 _ IH2]; simpl.
  - done.
  - by rewrite IH.
  - rewrite !app_assoc. f_equiv. apply Permutation_app_comm.
  - by rewrite IH1.
Qed.

(** ** The map stage *)

Lemma emit_concat (parts : list (list (list N))) :
  emit (concat parts) = concat (map emit parts).
Proof.
  induction parts as [|p parts IH]; [done|].
  simpl. unfold emit in *. by rewrite flat_map_app, IH.
Qed.

(** Every emitted pair is an eligible word with the count one. *)
Lemma emit_pairs (words : list (list N)) wc :
  wc ∈ emit words → eligible wc.1 = true ∧ wc.2 = 1.
Proof.
  unfold emit. rewrite list_elem_of_In, in_flat_map.
  intros (w & _ & Hw). destruct (eligible w) eqn:He; [|done].
  destruct Hw as [<-|[]]. done.
Qed.

Section MapStage.
Context (U : UnicodeData).

Lemma map_function_emit chunk : map_function U chunk = emit (split U chunk).
Proof. reflexivity. Qed.

(** Normalized text splits into the words of the lower-cased text. *)
Lemma split_clean_text text :
  split U (clean_text U text)
  = split U (lower U (sub_digit_runs U false (sub_not_word_space U text))).
Proof. unfold clean_text. apply split_join, split_words. Qed.

(** With at least one worker the map phase succeeds; it yields, in some
    order, the pairs of the chunks, and these are the pairs of the whole
    normalized text. *)
Lemma map_phase_ok (num_workers : Z) order text :
  1 ≤ num_workers →
  ∃ chunks pairs,
    split_text U (clean_text U text) num_workers = Ok chunks
    ∧ map_phase U num_workers order text = Ok pairs
    ∧ pairs ≡ₚ concat (map (map_function U) chunks)
    ∧ concat (map (map_function U) chunks)
      = map_function U (clean_text U text).
Proof.
  intros Hn.
  destruct (split_text_words U (clean_text U text) _ Hn)
    as (chunks & Hs & _ & Hcat).
  exists chunks, (concat (as_completed order (map (map_function U) chunks))).
  split; [done|]. split.
  - unfold map_phase. rewrite Hs. simpl. unfold ThreadPoolExecutor.
    destruct (Z.leb_spec num_workers 0); [lia|done].
  - split; [apply concat_Permutation, as_completed_Permutation|].
    rewrite map_function_emit, <- Hcat, emit_concat, map_map.
    done.
Qed.

End MapStage.

(** ** The reduce stage *)

Lemma add_count_comm (m : gmap (list N) Z) a b :
  add_count (add_count m a) b = add_count (add_count m b) a.
Proof.
  destruct a as [k c], b as [k' c']. unfold add_count. simpl.
  destruct (decide (k = k')) as [->|Hne].
  - rewrite !lookup_insert_eq, !insert_insert_eq. simpl. f_equal. lia.
  - rewrite !lookup_insert_ne by done. by apply insert_insert_ne.
Qed.

Lemma foldl_add_count_Permutation l l' :
  l ≡ₚ l' → ∀ m, foldl add_count m l = foldl add_count m l'.
Proof.
  induction 1 as [|x l l' _ IH|x y l|l l' l'' _ IH1 _ IH2]; intros m; simpl.
  - done.
  - apply IH.
  - by rewrite add_count_comm.
  - by rewrite IH1.
Qed.

Lemma total_count_absent (w : list N) (l : list (list N * Z)) :
  w ∉ l.*1 → total_count w l = 0.
Proof.
  induction l as [|[k c] l IH]; [done|]. simpl. intros Hw.
  apply not_elem_of_cons in Hw as [Hne Hw].
  destruct (decide (k = w)); [congruence|by apply IH].
Qed.

Lemma foldl_add_count_absent (l : list (list N * Z)) (w : list N) (m : gmap (list N) Z) :
  w ∉ l.*1 → foldl add_count m l !! w = m !! w.
Proof.
  revert m. induction l as [|[k c] l IH]; intros m Hw; [done|].
  simpl in *. apply not_elem_of_cons in Hw as [Hne Hw].
  rewrite IH by done. unfold add_count. simpl. by rewrite lookup_insert_ne.
Qed.

Lemma foldl_add_count_present (l : list (list N * Z)) (w : list N) (m : gmap (list N) Z) :
  w ∈ l.*1 →
  foldl add_count m l !! w = Some (default 0 (m !! w) + total_count w l).
Proof.
  revert m. induction l as [|[k c] l IH]; intros m Hw.
  { by apply elem_of_nil in Hw. }
  simpl in *. destruct (decide (k = w)) as [->|Hne].
  - destruct (decide (w ∈ l.*1)) as [Hin|Hout].
    + rewrite IH by done. unfold add_count. simpl.
      rewrite lookup_insert_eq. simpl. f_equal. lia.
    + rewrite foldl_add_count_absent, total_count_absent by done.
      unfold add_count. simpl. rewrite lookup_insert_eq. f_equal. lia.
  - apply elem_of_cons in Hw as [?|Hw]; [congruence|].
    rewrite IH by done. unfold add_count. simpl.
    by rewrite lookup_insert_ne.
Qed.

(** The table has the words of the pairs as keys, each with the sum of
    its counts. *)
Lemma reduce_function_lookup (l : list (list N * Z)) (w : list N) :
  reduce_function l !! w
  = if decide (w ∈ l.*1) then Some (total_count w l) else None.
Proof.
  unfold reduce_function. destruct (decide (w ∈ l.*1)).
  - rewrite foldl_add_count_present by done. by rewrite lookup_empty.
  - by rewrite foldl_add_count_absent.
Qed.

Lemma reduce_function_Permutation l l' :
  l ≡ₚ l' → reduce_function l = reduce_function l'.
Proof. intros Hp. by apply foldl_add_count_Permutation. Qed.

Lemma total_count_units (w : list N) (l : list (list N * Z)) :
  Forall (fun wc => wc.2 = 1) l → w ∈ l.*1 → 1 ≤ total_count w l.
Proof.
  intros Hl. assert (0 ≤ total_count w l ∧ (w ∈ l.*1 → 1 ≤ total_count w l));
    [|tauto].
  induction Hl as [|[k c] l Hc _ [IH0 IH1]]; simpl in *.
  - split; [done|]. intros H. by apply elem_of_nil in H.
  - subst c. destruct (decide (k = w)) as [->|Hne]; split; try lia.
    intros H. apply elem_of_cons in H as [?|H]; [congruence|by apply IH1].
Qed.

Lemma sum_values_insert_fresh (m : gmap (list N) Z) k v :
  m !! k = None → sum_values (<[k:=v]> m) = v + sum_values m.
Proof.
  intros Hk. unfold sum_values.
  rewrite map_fold_insert_L; [done| |done]. intros. lia.
Qed.

Lemma sum_values_add_count (m : gmap (list N) Z) wc :
  sum_values (add_count m wc) = sum_values m + wc.2.
Proof.
  destruct wc as [k c]. unfold add_count. simpl.
  destruct (m !! k) as [v|] eqn:Hk; simpl.
  - rewrite <- (insert_delete_id m k v Hk) at 2.
    rewrite <- insert_delete_eq.
    rewrite !sum_values_insert_fresh by apply lookup_delete_eq. lia.
  - rewrite sum_values_insert_fresh by done. lia.
Qed.

Lemma sum_values_foldl (l : list (list N * Z)) (m : gmap (list N) Z) :
  sum_values (foldl add_count m l) = sum_values m + foldr Z.add 0 l.*2.
Proof.
  revert m. induction l as [|wc l IH]; intros m; [simpl; lia|].
  rewrite fmap_cons. cbn [foldl foldr].
  rewrite IH, sum_values_add_count. lia.
Qed.

Lemma sum_values_empty : sum_values ∅ = 0.
Proof. unfold sum_values. apply map_fold_empty. Qed.

Lemma sum_units (l : list (list N * Z)) :
  Forall (fun wc => wc.2 = 1) l → foldr Z.add 0 l.*2 = len l.
Proof.
  unfold len. induction 1 as [|[k c] l Hc _ IH]; [done|].
  rewrite fmap_cons. cbn [foldr length snd] in *. rewrite IH, Hc. lia.
Qed.

(** ** The whole pipeline *)

Lemma eligible_spec (w : list N) :
  eligible w = true ↔ 3 ≤ len w ∧ w ∉ stop_words.
Proof.
  unfold eligible.
  rewrite andb_true_iff, Z.leb_le, negb_true_iff, bool_decide_eq_false.
  done.
Qed.

Section Pipeline.
Context (U : UnicodeData).

(** With at least one worker [mapreduce] returns the table of the pairs
    of the map phase, which are the pairs of the normalized text in some
    order. *)
Lemma mapreduce_ok (num_workers : Z) order text :
  1 ≤ num_workers →
  ∃ pairs,
    map_phase U num_workers order text = Ok pairs
    ∧ pairs ≡ₚ map_function U (clean_text U text)
    ∧ mapreduce U num_workers order text = Ok (reduce_function pairs).
Proof.
  intros Hn.
  destruct (map_phase_ok U _ order text Hn)
    as (chunks & pairs & _ & Hm & Hp & Hcat).
  exists pairs. split; [done|]. split; [by rewrite <- Hcat|].
  unfold mapreduce. by rewrite Hm.
Qed.

(** The sequential reference: one chunk, no thread pool. *)
Lemma mapreduce_reference (num_workers : Z) order text :
  1 ≤ num_workers →
  mapreduce U num_workers order text
  = Ok (reduce_function (map_function U (clean_text U text))).
Proof.
  intros Hn. destruct (mapreduce_ok _ order text Hn) as (pairs & _ & Hp & ->).
  f_equal. by apply reduce_function_Permutation.
Qed.

Lemma map_function_pairs text wc :
  wc ∈ map_function U text → eligible wc.1 = true ∧ wc.2 = 1.
Proof. apply emit_pairs. Qed.

Lemma map_function_units text :
  Forall (fun wc => wc.2 = 1) (map_function U text).
Proof. apply Forall_forall. intros wc Hwc. by apply map_function_pairs in Hwc as [_ ?]. Qed.

End Pipeline.

(** ** The claims *)

(** C1. For every text and every [n >= 1], [split_text] on the normalized
    text returns exactly [n] chunks; the word sequences of the chunks, taken
    in list order, are the word sequence of the normalized text (nothing
    dropped, nothing repeated), and so is the word sequence of the chunks
    joined with spaces. *)
Theorem split_text_partition (U : UnicodeData) (text : list N) (n : Z) :
  1 ≤ n →
  ∃ chunks,
    split_text U (clean_text U text) n = Ok chunks
    ∧ len chunks = n
    ∧ concat (map (split U) chunks) = split U (clean_text U text)
    ∧ split U (join [SPACE] chunks) = split U (clean_text U text).
Proof.
  intros Hn.
  destruct (split_text_words U (clean_text U text) n Hn)
    as (chunks & Hs & Hlen & Hcat).
  exists chunks. repeat split; try done.
  by rewrite split_join_concat.
Qed.

Lemma split_text_partition_witness :
  1 ≤ 3 ∧
  ∃ chunks,
    split_text py (clean_text py (of_string "The cat sat on the mat. The cat ran.")) 3
    = Ok chunks
    ∧ len chunks = 3
    ∧ concat (map (split py) chunks)
      = split py (clean_text py (of_string "The cat sat on the mat. The cat ran."))
    ∧ split py (join [SPACE] chunks)
      = split py (clean_text py (of_string "The cat sat on the mat. The cat ran.")).
Proof.
  split; [lia|].
  apply (split_text_partition py
           (of_string "The cat sat on the mat. The cat ran.") 3).
  lia.
Defined.

(** C2, as the code has it. With [num_workers = 0] the run fails for every
    text and returns no table; the exception is Python's
    [ZeroDivisionError], raised by the division in [split_text]. *)
Theorem mapreduce_zero_workers (U : UnicodeData) (order : list nat)
  (text : list N) :
  mapreduce U 0 order text = Raise ZeroDivisionError
  ∧ ∀ table, mapreduce U 0 order text ≠ Ok table.
Proof. split; [reflexivity|discriminate]. Qed.

(** C2 as stated fails: the run with no worker does not end in
    [ConfigurationError]. *)
Lemma mapreduce_zero_workers_not_ConfigurationError :
  mapreduce py 0 [] (of_string "The cat sat on the mat. The cat ran.")
  ≠ Raise ConfigurationError.
Proof. vm_compute. discriminate. Qed.

(** C3. For every text and every [num_workers >= 1] the run returns a
    table, and none of its keys is shorter than three characters or is a
    stop word. *)
Theorem mapreduce_keys_eligible (U : UnicodeData) (num_workers : Z)
  (order : list nat) (text : list N) :
  1 ≤ num_workers →
  ∃ table,
    mapreduce U num_workers order text = Ok table
    ∧ ∀ word, is_Some (table !! word) →
              ¬ (len word < 3) ∧ word ∉ stop_words.
Proof.
  intros Hn. eexists. split; [by apply mapreduce_reference|].
  intros word [v Hv]. rewrite reduce_function_lookup in Hv.
  destruct (decide _) as [Hin|]; [|done].
  apply list_elem_of_fmap in Hin as (wc & -> & Hwc).
  apply map_function_pairs in Hwc as [He _].
  apply eligible_spec in He. split; [lia|tauto].
Qed.

Lemma mapreduce_keys_eligible_witness :
  1 ≤ 2 ∧
  ∃ table,
    mapreduce py 2 [1%nat] (of_string "The cat sat on the mat. The cat ran.")
    = Ok table
    ∧ ∀ word, is_Some (table !! word) →
              ¬ (len word < 3) ∧ word ∉ stop_words.
Proof.
  split; [lia|].
  apply (mapreduce_keys_eligible py 2 [1%nat]
           (of_string "The cat sat on the mat. The cat ran.")).
  lia.
Defined.

(** C6. For every run with at least one worker, the values of the returned
    table add up to the number of pairs the map stage emitted across all
    chunks; and for every list of (word, count) pairs, the values of
    [reduce_function]'s result add up to the sum of the counts. *)
Theorem sum_invariant (U : UnicodeData) (num_workers : Z) (order : list nat)
  (text : list N) :
  1 ≤ num_workers →
  (∃ chunks pairs table,
     split_text U (clean_text U text) num_workers = Ok chunks
     ∧ map_phase U num_workers order text = Ok pairs
     ∧ mapreduce U num_workers order text = Ok table
     ∧ len pairs = len (concat (map (map_function U) chunks))
     ∧ sum_values table = len pairs)
  ∧ ∀ word_counts : list (list N * Z),
      sum_values (reduce_function word_counts) = foldr Z.add 0 word_counts.*2.
Proof.
  intros Hn.
  assert (∀ l : list (list N * Z),
            sum_values (reduce_function l) = foldr Z.add 0 l.*2) as Hsum.
  { intros l. unfold reduce_function.
    rewrite sum_values_foldl, sum_values_empty. lia. }
  split; [|done].
  destruct (map_phase_ok U _ order text Hn)
    as (chunks & pairs & Hs & Hm & Hp & Hcat).
  exists chunks, pairs, (reduce_function pairs).
  split; [done|]. split; [done|].
  split; [unfold mapreduce; by rewrite Hm|].
  split; [unfold len; by rewrite Hp|].
  rewrite Hsum. apply sum_units.
  rewrite Hp, Hcat. apply map_function_units.
Qed.

Lemma sum_invariant_witness :
  1 ≤ 4 ∧
  ((∃ chunks pairs table,
      split_text py (clean_text py (of_string "one fish, two fish, red fish")) 4
      = Ok chunks
      ∧ map_phase py 4 [3; 0; 1]%nat (of_string "one fish, two fish, red fish")
        = Ok pairs
      ∧ mapreduce py 4 [3; 0; 1]%nat (of_string "one fish, two fish, red fish")
        = Ok table
      ∧ len pairs = len (concat (map (map_function py) chunks))
      ∧ sum_values table = len pairs)
   ∧ ∀ word_counts : list (list N * Z),
       sum_values (reduce_function word_counts)
       = foldr Z.add 0 word_counts.*2).
Proof.
  split; [lia|].
  apply (sum_invariant py 4 [3; 0; 1]%nat
           (of_string "one fish, two fish, red fish")).
  lia.
Defined.

(** C7. Aggregation does not depend on the order of its input: on a
    permutation of the pairs [reduce_function] returns the same table, that
    is the same keys with the same counts. *)
Theorem reduce_function_order_independent (l l' : list (list N * Z)) :
  l ≡ₚ l' →
  reduce_function l = reduce_function l'
  ∧ dom (reduce_function l) = dom (reduce_function l')
  ∧ ∀ word, reduce_function l !! word = reduce_function l' !! word.
Proof.
  intros Hp. apply reduce_function_Permutation in Hp. by rewrite Hp.
Qed.

Lemma reduce_function_order_independent_witness :
  [(of_string "cat", 1); (of_string "mat", 2); (of_string "cat", 3)]
  ≡ₚ [(of_string "mat", 2); (of_string "cat", 3); (of_string "cat", 1)]
  ∧ (reduce_function
       [(of_string "cat", 1); (of_string "mat", 2); (of_string "cat", 3)]
     = reduce_function
         [(of_string "mat", 2); (of_string "cat", 3); (of_string "cat", 1)]
     ∧ dom (reduce_function
              [(of_string "cat", 1); (of_string "mat", 2); (of_string "cat", 3)])
       = dom (reduce_function
                [(of_string "mat", 2); (of_string "cat", 3); (of_string "cat", 1)])
     ∧ ∀ word,
         reduce_function
           [(of_string "cat", 1); (of_string "mat", 2); (of_string "cat", 3)]
         !! word
         = reduce_function
             [(of_string "mat", 2); (of_string "cat", 3); (of_string "cat", 1)]
           !! word).
Proof.
  assert ([(of_string "cat", 1); (of_string "mat", 2); (of_string "cat", 3)]
          ≡ₚ [(of_string "mat", 2); (of_string "cat", 3); (of_string "cat", 1)])
    as Hp.
  { etransitivity; [apply perm_swap|]. apply perm_skip, perm_swap. }
  split; [exact Hp|].
  exact (reduce_function_order_independent _ _ Hp).
Defined.

(** C8. The scenario: on "The cat sat on the mat. The cat ran." with one
    worker, the normalized text is "the cat sat on the mat the cat ran", the
    words that pass the filter are cat, sat, mat, cat, ran, and the table is
    cat: 2, sat: 1, mat: 1, ran: 1. *)
Theorem scenario_cat_sat_mat (order : list nat) :
  clean_text py (of_string "The cat sat on the mat. The cat ran.")
  = of_string "the cat sat on the mat the cat ran"
  ∧ (map_function py
       (clean_text py (of_string "The cat sat on the mat. The cat ran."))).*1
    = map of_string ["cat"; "sat"; "mat"; "cat"; "ran"]%string
  ∧ mapreduce py 1 order (of_string "The cat sat on the mat. The cat ran.")
    = Ok {[ of_string "cat" := 2; of_string "sat" := 1;
            of_string "mat" := 1; of_string "ran" := 1 ]}.
Proof.
  split; [by vm_compute|]. split; [by vm_compute|].
  rewrite mapreduce_reference by lia. by vm_compute.
Qed.

(** C9. The result does not depend on the number of workers: for every text
    and all [m, n >= 1] the runs with [m] and with [n] workers return the
    same table, and it is the table of the sequential reference
    [reduce_function (map_function (clean_text text))]. *)
Theorem mapreduce_partition_independent (U : UnicodeData) (text : list N)
  (m n : Z) (order_m order_n : list nat) :
  1 ≤ m → 1 ≤ n →
  mapreduce U m order_m text = mapreduce U n order_n text
  ∧ mapreduce U m order_m text = Ok (reference_count U text).
Proof.
  intros Hm Hn. unfold reference_count.
  by rewrite !mapreduce_reference.
Qed.

Lemma mapreduce_partition_independent_witness :
  1 ≤ 2 ∧ 1 ≤ 5 ∧
  (mapreduce py 2 [1%nat] (of_string "The cat sat on the mat. The cat ran.")
   = mapreduce py 5 [4; 0; 2]%nat
       (of_string "The cat sat on the mat. The cat ran.")
   ∧ mapreduce py 2 [1%nat] (of_string "The cat sat on the mat. The cat ran.")
     = Ok (reference_count py
             (of_string "The cat sat on the mat. The cat ran."))).
Proof.
  split; [lia|]. split; [lia|].
  apply (mapreduce_partition_independent py
           (of_string "The cat sat on the mat. The cat ran.")
           2 5 [1%nat] [4; 0; 2]%nat); lia.
Defined.

(** C10. For every text and every [num_workers >= 1] the run returns a
    table in which every count is at least one: no key has the count
    zero. *)
Theorem mapreduce_counts_positive (U : UnicodeData) (num_workers : Z)
  (order : list nat) (text : list N) :
  1 ≤ num_workers →
  ∃ table,
    mapreduce U num_workers order text = Ok table
    ∧ ∀ word count, table !! word = Some count → 1 ≤ count.
Proof.
  intros Hn. eexists. split; [by apply mapreduce_reference|].
  intros word count Hc. rewrite reduce_function_lookup in Hc.
  destruct (decide _) as [Hin|]; [|done].
  injection Hc as <-. apply total_count_units; [|done].
  apply map_function_units.
Qed.

Lemma mapreduce_counts_positive_witness :
  1 ≤ 3 ∧
  ∃ table,
    mapreduce py 3 [2; 1]%nat (of_string "The cat sat on the mat. The cat ran.")
    = Ok table
    ∧ ∀ word count, table !! word = Some count → 1 ≤ count.
Proof.
  split; [lia|].
  apply (mapreduce_counts_positive py 3 [2; 1]%nat
           (of_string "The cat sat on the mat. The cat ran.")).
  lia.
Defined.

(** ** Normalization *)

(** The normalized text is a list of words with one space between two
    words, whatever the tables. *)
Lemma clean_text_single_spaced (U : UnicodeData) (text : list N) :
  single_spaced (nonspace U) (clean_text U text).
Proof.
  eexists. split; [reflexivity|].
  eapply Forall_impl; [apply split_words|]. by intros w [??].
Qed.

(** Case analysis on the comparisons of the character tables. *)
Ltac table_cases :=
  repeat (match goal with
          | |- context [(?a <=? ?b)%N] => destruct (N.leb_spec a b)
          | |- context [(?a =? ?b)%N] => destruct (N.eqb_spec a b)
          | H : context [(?a <=? ?b)%N] |- _ => destruct (N.leb_spec a b)
          | H : context [(?a =? ?b)%N] |- _ => destruct (N.eqb_spec a b)
          end; simpl in *; try lia; try done);
  try lia; try done.

Lemma settled_SPACE : settled SPACE.
Proof. by vm_compute. Qed.

Lemma py_lower_char_settled (d : N) :
  is_ascii d → py_word_or_space d = true → py_isdecimal d = false →
  Forall settled (py_lower_char d).
Proof.
  unfold is_ascii. intros Ha Hw Hd.
  unfold py_lower_char, in_range.
  destruct (N.leb_spec 65 d), (N.leb_spec d 90); simpl.
  - repeat constructor; unfold is_ascii, py_word_or_space, py_isalnum,
      py_isdecimal, py_lower_char, UNDERSCORE, in_range; table_cases.
  - destruct (N.eqb_spec d 304); [lia|].
    repeat constructor; try done.
    unfold py_lower_char, in_range. table_cases.
  - destruct (N.eqb_spec d 304); [lia|].
    repeat constructor; try done.
    unfold py_lower_char, in_range. table_cases.
  - lia.
Qed.

(** A settled character that is not white space is a lowercase letter or
    the underscore. *)
Lemma settled_token_char (c : N) :
  settled c → py_isspace c = false → lower_letter c = true ∨ c = UNDERSCORE.
Proof.
  unfold settled, is_ascii, py_word_or_space, py_isalnum, py_isdecimal,
    py_lower_char, lower_letter, UNDERSCORE, in_range.
  intros (Ha & Hw & Hd & Hl) Hs. rewrite Hs, orb_false_r in Hw.
  clear Hs. table_cases; auto; injection Hl; lia.
Qed.

Lemma py_lower_settled (text : list N) :
  Forall settled text → py_lower text = text.
Proof.
  induction 1 as [|c text (_ & _ & _ & Hc) _ IH]; [done|].
  unfold py_lower in *. simpl. by rewrite Hc, IH.
Qed.

Section Ascii.
Context (U : UnicodeData) (HU : ascii_exact U).

Lemma sub_not_word_space_ascii text :
  Forall is_ascii text →
  Forall (fun c => is_ascii c ∧ py_word_or_space c = true)
         (sub_not_word_space U text).
Proof.
  intros Ht. unfold sub_not_word_space. apply Forall_map.
  eapply Forall_impl; [exact Ht|]. intros c Hc. simpl.
  unfold re_word.
  rewrite (ascii_isalnum U HU c Hc), (ascii_isspace U HU c Hc).
  fold (py_word_or_space c).
  destruct (py_word_or_space c) eqn:Hw; [done|by vm_compute].
Qed.

Lemma sub_digit_runs_ascii (in_run : bool) text :
  Forall (fun c => is_ascii c ∧ py_word_or_space c = true) text →
  Forall (fun c => is_ascii c ∧ py_word_or_space c = true
                   ∧ py_isdecimal c = false)
         (sub_digit_runs U in_run text).
Proof.
  intros Ht. revert in_run.
  induction Ht as [|c text [Ha Hw] _ IH]; intros in_run; [constructor|].
  simpl. rewrite (ascii_isdecimal U HU c Ha).
  destruct (py_isdecimal c) eqn:Hd.
  - destruct in_run; [apply IH|]. constructor; [by vm_compute|apply IH].
  - constructor; [done|apply IH].
Qed.

(** On ASCII text every character of the normalized text is settled. *)
Lemma clean_text_settled text :
  Forall is_ascii text → Forall settled (clean_text U text).
Proof.
  intros Ht. unfold clean_text.
  pose proof (sub_digit_runs_ascii false _ (sub_not_word_space_ascii _ Ht))
    as Hd.
  set (t2 := sub_digit_runs U false (sub_not_word_space U text)) in *.
  rewrite (ascii_lower U HU t2)
    by (eapply Forall_impl; [exact Hd|]; by intros c [??]).
  assert (Forall settled (py_lower t2)) as Hl.
  { unfold py_lower. clear -Hd.
    induction Hd as [|c t (Ha & Hw & Hdec) _ IH]; [constructor|].
    simpl. apply Forall_app. split; [by apply py_lower_char_settled|done]. }
  apply Forall_forall. intros c Hc.
  apply join_chars in Hc as [Hc|(w & Hw & Hc)].
  - apply list_elem_of_singleton in Hc as ->. apply settled_SPACE.
  - rewrite Forall_forall in Hl. apply Hl. by eapply split_chars.
Qed.

(** Settled text goes through the three rewriting steps unchanged. *)
Lemma settled_fixed text :
  Forall settled text →
  lower U (sub_digit_runs U false (sub_not_word_space U text)) = text.
Proof.
  intros Ht.
  assert (sub_not_word_space U text = text) as ->.
  { unfold sub_not_word_space.
    induction Ht as [|c t (Ha & Hw & _) _ IH]; [done|].
    simpl. rewrite IH. unfold re_word.
    rewrite (ascii_isalnum U HU c Ha), (ascii_isspace U HU c Ha).
    fold (py_word_or_space c). by rewrite Hw. }
  assert (sub_digit_runs U false text = text) as ->.
  { induction Ht as [|c t (Ha & _ & Hd & _) _ IH]; [done|].
    simpl. by rewrite (ascii_isdecimal U HU c Ha), Hd, IH. }
  rewrite (ascii_lower U HU text)
    by (eapply Forall_impl; [exact Ht|]; by intros c [??]).
  by apply py_lower_settled.
Qed.

(** On ASCII text the tokens of the normalized text are made of the
    letters a to z and of underscores. *)
Lemma clean_text_tokens_ascii text :
  Forall is_ascii text →
  single_spaced (fun c => lower_letter c = true ∨ c = UNDERSCORE)
                (clean_text U text).
Proof.
  intros Ht. pose proof (clean_text_settled text Ht) as Hs.
  unfold clean_text in *. eexists. split; [reflexivity|].
  set (t3 := lower U _) in *.
  apply Forall_forall. intros w Hw.
  pose proof (split_words U t3) as Hws. rewrite Forall_forall in Hws.
  destruct (Hws w Hw) as [Hne Hns]. split; [done|].
  apply Forall_forall. intros c Hc.
  rewrite Forall_forall in Hns. specialize (Hns c Hc).
  assert (settled c) as Hsc.
  { rewrite Forall_forall in Hs. apply Hs. by eapply join_part. }
  apply settled_token_char; [done|].
  destruct Hsc as (Ha & _). by rewrite <- (ascii_isspace U HU c Ha).
Qed.

End Ascii.

Lemma py_ascii_exact : ascii_exact py.
Proof. by split. Qed.

(** C4, at the input "a_b". The source says that [clean_text] removes
    punctuation and digits and lower-cases the text, so that only lowercase
    letters are left in the tokens.  The underscore is punctuation, but
    [\w] matches it: the normalized text is "a_b" again, and it is not a
    list of tokens of lowercase letters. *)
Theorem clean_text_keeps_underscore :
  clean_text py (of_string "a_b") = of_string "a_b"
  ∧ ¬ single_spaced (fun c => lower_letter c = true)
        (clean_text py (of_string "a_b")).
Proof.
  split; [by vm_compute|].
  intros (tokens & Heq & Htok).
  assert (UNDERSCORE ∈ clean_text py (of_string "a_b")) as Hin
    by (vm_compute; apply list_elem_of_In; simpl; tauto).
  rewrite Heq in Hin. apply join_chars in Hin as [Hin|(t & Ht & Hin)].
  - apply list_elem_of_singleton in Hin. discriminate.
  - rewrite Forall_forall in Htok. destruct (Htok t Ht) as [_ Hall].
    rewrite Forall_forall in Hall. specialize (Hall _ Hin). discriminate.
Qed.

(** Idempotence of the normalization, table by table. *)

Section Closed.
Context (U : UnicodeData) (K S : N → Prop) (HK : lower_closed U K S).

Lemma passes_SPACE : passes U SPACE.
Proof.
  destruct (closed_space U K S HK) as (_ & _ & Hd). split; [|done].
  unfold kept. by rewrite isspace_SPACE, orb_true_r.
Qed.

Lemma sub_not_word_space_kept text :
  Forall K text →
  Forall (fun c => K c ∧ kept U c = true) (sub_not_word_space U text).
Proof.
  intros Ht. unfold sub_not_word_space. apply Forall_map.
  eapply Forall_impl; [exact Ht|]. intros c Hc. simpl.
  fold (kept U c). destruct (kept U c) eqn:Hk; [done|].
  split; [apply (closed_space U K S HK)|apply passes_SPACE].
Qed.

Lemma sub_digit_runs_passes (in_run : bool) text :
  Forall (fun c => K c ∧ kept U c = true) text →
  Forall (fun c => K c ∧ passes U c) (sub_digit_runs U in_run text).
Proof.
  intros Ht. revert in_run.
  induction Ht as [|c text [Hc Hk] _ IH]; intros in_run; [constructor|].
  simpl. destruct (isdecimal U c) eqn:Hd.
  - destruct in_run; [apply IH|]. constructor; [|apply IH].
    split; [apply (closed_space U K S HK)|apply passes_SPACE].
  - constructor; [|apply IH]. by repeat split.
Qed.

(** On a text over [K] the normalized text is made of characters of [S]
    that pass the substitutions. *)
Lemma clean_text_stable text :
  Forall K text → Forall (fun d => S d ∧ passes U d) (clean_text U text).
Proof.
  intros Ht. unfold clean_text.
  pose proof (closed_lower U K S HK _
                (sub_digit_runs_passes false _ (sub_not_word_space_kept _ Ht)))
    as Hl.
  set (t3 := lower U _) in *.
  apply Forall_forall. intros c Hc.
  apply join_chars in Hc as [Hc|(w & Hw & Hc)].
  - apply list_elem_of_singleton in Hc as ->.
    split; [apply (closed_space U K S HK)|apply passes_SPACE].
  - rewrite Forall_forall in Hl. apply Hl. by eapply split_chars.
Qed.

(** Such a text goes through the three rewriting steps unchanged. *)
Lemma stable_fixed text :
  Forall (fun d => S d ∧ passes U d) text →
  lower U (sub_digit_runs U false (sub_not_word_space U text)) = text.
Proof.
  intros Ht.
  assert (sub_not_word_space U text = text) as ->.
  { unfold sub_not_word_space.
    induction Ht as [|c t (_ & Hk & _) _ IH]; [done|].
    simpl. rewrite IH. fold (kept U c). by rewrite Hk. }
  assert (sub_digit_runs U false text = text) as ->.
  { induction Ht as [|c t (_ & _ & Hd) _ IH]; [done|].
    simpl. by rewrite Hd, IH. }
  apply (closed_stable U K S HK).
  eapply Forall_impl; [exact Ht|]. by intros c [??].
Qed.

End Closed.

(** The table [py] is closed on every code point but U+0130. *)
Lemma py_lower_char_closed (c : N) :
  c ≠ 304%N → passes py c →
  Forall (fun d => py_lower_char d = [d] ∧ passes py d) (py_lower_char c).
Proof.
  intros Hc [Hk Hd].
  change (kept py c) with (py_word_or_space c) in Hk.
  change (isdecimal py c) with (py_isdecimal c) in Hd.
  assert ((py_lower_char c = [(c + 32)%N] ∧ (65 ≤ c ≤ 90)%N)
          ∨ py_lower_char c = [c]) as [[-> Hr]|Hl].
  { unfold py_lower_char, in_range. table_cases; auto. }
  - constructor; [|constructor]. split; [|split].
    + unfold py_lower_char, in_range. table_cases.
    + change (py_word_or_space (c + 32) = true).
      unfold py_word_or_space, py_isalnum, in_range. table_cases.
    + change (py_isdecimal (c + 32) = false).
      unfold py_isdecimal, in_range. table_cases.
  - rewrite Hl. constructor; [|constructor]. by repeat split.
Qed.

Lemma py_lower_closed :
  lower_closed py (fun c => c ≠ 304%N) (fun c => py_lower_char c = [c]).
Proof.
  split.
  - by vm_compute.
  - intros s Hs. change (lower py s) with (py_lower s). unfold py_lower.
    induction Hs as [|c s [Hc Hp] _ IH]; [constructor|].
    simpl. apply Forall_app. split; [by apply py_lower_char_closed|done].
  - intros s Hs. change (lower py s) with (py_lower s). unfold py_lower.
    induction Hs as [|c s Hc _ IH]; [done|]. simpl. by rewrite Hc, IH.
Qed.

(** Tables that agree with CPython's on ASCII are closed on ASCII. *)
Lemma ascii_lower_closed (U : UnicodeData) :
  ascii_exact U → lower_closed U is_ascii settled.
Proof.
  intros HU.
  assert (∀ c, is_ascii c → kept U c = py_word_or_space c) as Hkept.
  { intros c Hc. unfold kept, re_word.
    by rewrite (ascii_isalnum U HU c Hc), (ascii_isspace U HU c Hc). }
  split.
  - split; [by vm_compute|]. split; [apply settled_SPACE|].
    by rewrite (ascii_isdecimal U HU) by by vm_compute.
  - intros s Hs.
    rewrite (ascii_lower U HU s)
      by (eapply Forall_impl; [exact Hs|]; by intros c [??]).
    assert (Forall settled (py_lower s)) as Hl.
    { unfold py_lower. induction Hs as [|c s (Ha & Hk & Hd) _ IH]; [constructor|].
      simpl. apply Forall_app. split; [|done].
      apply py_lower_char_settled; [done| |].
      - by rewrite <- Hkept.
      - by rewrite <- (ascii_isdecimal U HU). }
    eapply Forall_impl; [exact Hl|]. intros d Hd. split; [done|].
    destruct Hd as (Ha & Hw & Hdec & _). split.
    + by rewrite Hkept.
    + by rewrite (ascii_isdecimal U HU).
  - intros s Hs.
    rewrite (ascii_lower U HU s)
      by (eapply Forall_impl; [exact Hs|]; by intros c [??]).
    by apply py_lower_settled.
Qed.

(** In the table [py], every text without U+0130 is normalized once and
    for all. *)
Lemma clean_text_idempotent_unless_U0130 (text : list N) :
  Forall (fun c => c ≠ 304%N) text →
  clean_text py (clean_text py text) = clean_text py text.
Proof.
  intros Ht.
  pose proof (clean_text_stable py _ _ py_lower_closed text Ht) as Hs.
  unfold clean_text at 1. rewrite (stable_fixed py _ _ py_lower_closed _ Hs).
  unfold clean_text. by rewrite split_join by apply split_words.
Qed.

(** C5, as the code has it. [clean_text] is idempotent on every text over
    a class [K] of code points on which lower-casing does no harm
    ([lower_closed]): normalizing the normalized text changes nothing.
    U+0130 is the one code point that CPython's tables keep out of [K];
    ASCII text ([ascii_lower_closed]) and, in [py], every text without
    U+0130 ([py_lower_closed]) are instances. *)
Theorem clean_text_idempotent (U : UnicodeData) (K S : N → Prop)
  (text : list N) :
  lower_closed U K S → Forall K text →
  clean_text U (clean_text U text) = clean_text U text.
Proof.
  intros HK Ht.
  (* the normalized text is made of lower-stable characters that pass the
     two substitutions ... *)
  pose proof (clean_text_stable U K S HK text Ht) as Hs.
  (* ... so the second pass only splits and joins it again *)
  unfold clean_text at 1. rewrite (stable_fixed U K S HK _ Hs).
  unfold clean_text. by rewrite split_join by apply split_words.
Qed.

Lemma clean_text_idempotent_witness :
  lower_closed py (fun c => c ≠ 304%N) (fun c => py_lower_char c = [c])
  ∧ Forall (fun c => c ≠ 304%N) (of_string "Tea, 2" ++ 160%N :: of_string "CUPS!")
  ∧ clean_text py
      (clean_text py (of_string "Tea, 2" ++ 160%N :: of_string "CUPS!"))
    = clean_text py (of_string "Tea, 2" ++ 160%N :: of_string "CUPS!").
Proof.
  assert (Forall (fun c => c ≠ 304%N)
            (of_string "Tea, 2" ++ 160%N :: of_string "CUPS!")) as Ht
    by (repeat (constructor; [by vm_compute|]); constructor).
  split; [exact py_lower_closed|]. split; [exact Ht|].
  exact (clean_text_idempotent py _ _ _ py_lower_closed Ht).
Defined.

(** C5 as stated fails on U+0130, LATIN CAPITAL LETTER I WITH DOT ABOVE.
    [str.lower] turns it into U+0069 U+0307; the combining dot U+0307 is
    not a word character, so the second normalization replaces it with a
    space and returns "i". *)
Lemma clean_text_not_idempotent :
  clean_text py [304%N] = [105%N; 775%N]
  ∧ clean_text py (clean_text py [304%N]) = [105%N]
  ∧ clean_text py (clean_text py [304%N]) ≠ clean_text py [304%N].
Proof. split; [by vm_compute|]. split; [by vm_compute|]. by vm_compute. Qed.

(** * Further properties of the analyzer *)

(** ** The partition in detail *)

Lemma lookup_map {A B} (f : A → B) (l : list A) (i : nat) :
  map f l !! i = f <$> (l !! i).
Proof. revert i. induction l as [|x l IH]; intros [|i]; simpl; auto. Qed.

Lemma lookup_range (n : Z) (i : nat) (j : Z) :
  range n !! i = Some j ↔ j = Z.of_nat i ∧ Z.of_nat i < n.
Proof.
  unfold range. rewrite lookup_map. split.
  - intros H. destruct (seq 0 (Z.to_nat n) !! i) as [k|] eqn:Hk; [|done].
    apply lookup_seq in Hk as [-> Hlt]. injection H as <-. lia.
  - intros [-> Hlt]. rewrite lookup_seq_lt by lia. done.
Qed.

Lemma len_slice_inner {A} (l : list A) (a b : Z) :
  0 ≤ a ≤ b → b ≤ len l → len (slice l a b) = b - a.
Proof.
  intros Hab Hb. rewrite slice_inner by done. unfold len in *.
  rewrite length_take, length_drop. lia.
Qed.

Lemma join_nil_inv sep (parts : list (list N)) :
  parts ≠ [] → Forall (fun p => p ≠ []) parts → join sep parts ≠ [].
Proof.
  intros Hne Hall. destruct Hall as [|p parts Hp _]; [done|].
  destruct parts; simpl; [done|]. by destruct p.
Qed.

Lemma join_app sep (ps qs : list (list N)) :
  ps ≠ [] → qs ≠ [] →
  join sep (ps ++ qs) = join sep ps ++ sep ++ join sep qs.
Proof.
  intros Hps Hqs. induction ps as [|p ps IH]; [done|].
  destruct ps as [|p' ps].
  - destruct qs; [done|reflexivity].
  - change (join sep ((p :: p' :: ps) ++ qs))
      with (p ++ sep ++ join sep ((p' :: ps) ++ qs)).
    rewrite IH by done.
    change (join sep (p :: p' :: ps)) with (p ++ sep ++ join sep (p' :: ps)).
    by rewrite <- !app_assoc.
Qed.

(** Joining the joined parts is joining all the words, when no part is
    empty. *)
Lemma join_join_concat sep (parts : list (list (list N))) :
  Forall (fun p => p ≠ []) parts →
  join sep (map (join sep) parts) = join sep (concat parts).
Proof.
  induction 1 as [|p parts Hp Hall IH]; [done|].
  destruct parts as [|p' parts]; [simpl; by rewrite app_nil_r|].
  change (join sep (map (join sep) (p :: p' :: parts)))
    with (join sep p ++ sep ++ join sep (map (join sep) (p' :: parts))).
  rewrite IH. change (concat (p :: p' :: parts)) with (p ++ concat (p' :: parts)).
  rewrite join_app; [done|done|].
  inversion Hall as [|? ? Hp' _]; subst. simpl. by destruct p'.
Qed.

(** The slices that [split_text] takes cover the list, in order. *)
Lemma slices_cover {A} (words : list A) (num_chunks : Z) :
  1 ≤ num_chunks →
  concat (map (fun i => slice words (i * (len words / num_chunks))
                          (if i =? num_chunks - 1 then len words
                           else (i + 1) * (len words / num_chunks)))
              (range num_chunks))
  = words.
Proof.
  intros Hn. set (cs := len words / num_chunks).
  assert (0 ≤ cs) as Hcs by (apply Z.div_pos; unfold len; lia).
  assert (num_chunks * cs ≤ len words) as Hle by (apply Z.mul_div_le; lia).
  unfold range.
  assert (Z.to_nat num_chunks = S (Z.to_nat (num_chunks - 1))) as -> by lia.
  set (m := Z.to_nat (num_chunks - 1)).
  assert (Z.of_nat m = num_chunks - 1) as Hm by lia.
  rewrite seq_S, !map_app, concat_app. simpl.
  rewrite Hm, Z.eqb_refl, app_nil_r.
  rewrite (map_ext_in _ (fun i => slice words (i * cs) ((i + 1) * cs))).
  - rewrite slices_prefix, slice_inner by nia.
    rewrite Hm, (take_ge (drop _ _)); [apply take_drop|].
    rewrite length_drop. unfold len. lia.
  - intros i Hi. apply in_map_iff in Hi as (j & <- & Hj). apply in_seq in Hj.
    destruct (Z.eqb_spec (Z.of_nat j) (num_chunks - 1)); [lia|done].
Qed.

Section Chunks.
Context (U : UnicodeData).

(** The parts of [split_text] with their sizes. *)
Lemma split_text_sized text (num_chunks : Z) :
  1 ≤ num_chunks →
  ∃ parts,
    split_text U text num_chunks = Ok (map (join [SPACE]) parts)
    ∧ len parts = num_chunks
    ∧ concat parts = split U text
    ∧ Forall (Forall (is_word U)) parts
    ∧ ∀ (i : nat) p,
        parts !! i = Some p →
        len p = if Z.of_nat i =? num_chunks - 1
                then len (split U text)
                     - (num_chunks - 1) * (len (split U text) / num_chunks)
                else len (split U text) / num_chunks.
Proof.
  intros Hn. unfold split_text, floordiv.
  destruct (Z.eqb_spec num_chunks 0) as [|_]; [lia|]. simpl.
  set (words := split U text). set (cs := len words / num_chunks).
  assert (0 ≤ cs) as Hcs by (apply Z.div_pos; unfold len; lia).
  assert (num_chunks * cs ≤ len words) as Hle by (apply Z.mul_div_le; lia).
  set (parts := map (fun i => slice words (i * cs)
                          (if i =? num_chunks - 1 then len words
                           else (i + 1) * cs))
                    (range num_chunks)).
  assert (∀ (i : nat) p, parts !! i = Some p →
            Forall (is_word U) p
            ∧ len p = if Z.of_nat i =? num_chunks - 1
                      then len words - (num_chunks - 1) * cs else cs) as Hp.
  { intros i p Hp. unfold parts in Hp. rewrite lookup_map in Hp.
    destruct (range num_chunks !! i) as [j|] eqn:Hj; [|done].
    apply lookup_range in Hj as [-> Hlt]. injection Hp as <-. split.
    - unfold slice. apply Forall_take, Forall_drop, split_words.
    - destruct (Z.eqb_spec (Z.of_nat i) (num_chunks - 1)) as [->|Hne].
      + rewrite len_slice_inner by nia. lia.
      + rewrite len_slice_inner by nia. lia. }
  exists parts. split; [unfold parts; by rewrite map_map|].
  split; [unfold parts, len, range; rewrite !length_map, length_seq; lia|].
  split; [by apply slices_cover|]. split.
  - apply Forall_lookup. intros i p Hi. by apply Hp in Hi as [? _].
  - intros i p Hi. by apply Hp in Hi as [_ ?].
Qed.

End Chunks.

Lemma map_replicate {A B} (f : A → B) (y : B) (l : list A) :
  (∀ x, In x l → f x = y) → map f l = replicate (length l) y.
Proof.
  induction l as [|x l IH]; intros Hf; [done|].
  simpl. rewrite Hf by (by left). rewrite IH; [done|]. intros; apply Hf; by right.
Qed.

(** X1. With at least one chunk, [split_text] returns exactly [n] chunks;
    every chunk but the last holds exactly [len(words) // n] words, and the
    last one, at index [n - 1], holds all the words that are left. *)
Theorem split_text_chunk_sizes (U : UnicodeData) (text : list N) (n : Z) :
  1 ≤ n →
  ∃ chunks,
    split_text U text n = Ok chunks
    ∧ len chunks = n
    ∧ (∃ last, chunks !! Z.to_nat (n - 1) = Some last
               ∧ len (split U last)
                 = len (split U text) - (n - 1) * (len (split U text) / n))
    ∧ ∀ (i : nat) chunk,
        chunks !! i = Some chunk →
        len (split U chunk)
        = if Z.of_nat i =? n - 1
          then len (split U text) - (n - 1) * (len (split U text) / n)
          else len (split U text) / n.
Proof.
  intros Hn.
  destruct (split_text_sized U text n Hn) as (parts & -> & Hlen & _ & Hw & Hsz).
  assert (∀ (i : nat) chunk,
            map (join [SPACE]) parts !! i = Some chunk →
            len (split U chunk)
            = if Z.of_nat i =? n - 1
              then len (split U text) - (n - 1) * (len (split U text) / n)
              else len (split U text) / n) as Hsizes.
  { intros i chunk Hi. rewrite lookup_map in Hi.
    destruct (parts !! i) as [p|] eqn:Hp; [|done]. injection Hi as <-.
    rewrite split_join; [by apply Hsz|].
    rewrite Forall_lookup in Hw. by eapply Hw. }
  eexists. split; [reflexivity|].
  split; [unfold len in *; by rewrite length_map|].
  split; [|exact Hsizes].
  destruct (lookup_lt_is_Some_2 (map (join [SPACE]) parts) (Z.to_nat (n - 1)))
    as [last Hlast].
  { unfold len in Hlen. rewrite length_map. lia. }
  exists last. split; [done|].
  rewrite (Hsizes _ _ Hlast).
  destruct (Z.eqb_spec (Z.of_nat (Z.to_nat (n - 1))) (n - 1)); [done|lia].
Qed.

Lemma split_text_chunk_sizes_witness :
  1 ≤ 3 ∧
  ∃ chunks,
    split_text py (of_string "one two three four five six seven") 3 = Ok chunks
    ∧ len chunks = 3
    ∧ (∃ last, chunks !! Z.to_nat (3 - 1) = Some last
               ∧ len (split py last)
                 = len (split py (of_string "one two three four five six seven"))
                   - (3 - 1)
                     * (len (split py
                               (of_string "one two three four five six seven"))
                        / 3))
    ∧ ∀ (i : nat) chunk,
        chunks !! i = Some chunk →
        len (split py chunk)
        = if Z.of_nat i =? 3 - 1
          then len (split py (of_string "one two three four five six seven"))
               - (3 - 1)
                 * (len (split py (of_string "one two three four five six seven"))
                    / 3)
          else len (split py (of_string "one two three four five six seven")) / 3.
Proof.
  split; [lia|].
  apply (split_text_chunk_sizes py
           (of_string "one two three four five six seven") 3).
  lia.
Defined.

(** X2. With more chunks than words the chunk size is zero: every chunk
    but the last is the empty string and the last chunk holds all the
    words. *)
Theorem split_text_few_words (U : UnicodeData) (text : list N) (n : Z) :
  1 ≤ n → len (split U text) < n →
  split_text U text n
  = Ok (replicate (Z.to_nat (n - 1)) [] ++ [join [SPACE] (split U text)]).
Proof.
  intros Hn Hlt. unfold split_text, floordiv.
  destruct (Z.eqb_spec n 0) as [|_]; [lia|]. simpl.
  rewrite Z.div_small by (unfold len in *; lia).
  unfold range.
  assert (Z.to_nat n = S (Z.to_nat (n - 1))) as -> by lia.
  set (m := Z.to_nat (n - 1)).
  assert (Z.of_nat m = n - 1) as Hm by lia.
  rewrite seq_S, !map_app. simpl. rewrite Hm, Z.eqb_refl.
  f_equal. f_equal.
  - rewrite map_map, (map_replicate _ []); [by rewrite length_seq|].
    intros j Hj. apply in_seq in Hj.
    destruct (Z.eqb_spec (Z.of_nat j) (n - 1)); [lia|].
    by rewrite !Z.mul_0_r, slice_inner by (unfold len; lia).
  - rewrite Z.mul_0_r, slice_inner by (unfold len; lia).
    rewrite take_ge; [done|]. rewrite length_drop. unfold len. lia.
Qed.

Lemma split_text_few_words_witness :
  1 ≤ 10 ∧ len (split py (of_string "cat sat mat")) < 10 ∧
  split_text py (of_string "cat sat mat") 10
  = Ok (replicate (Z.to_nat (10 - 1)) []
        ++ [join [SPACE] (split py (of_string "cat sat mat"))]).
Proof.
  assert (len (split py (of_string "cat sat mat")) < 10) as Hlt by by vm_compute.
  split; [lia|]. split; [exact Hlt|].
  apply (split_text_few_words py (of_string "cat sat mat") 10); [lia|exact Hlt].
Defined.

(** X3. With no more chunks than words no chunk is empty, and the chunks
    joined with single spaces are the words of the text joined with single
    spaces. *)
Theorem split_text_join_exact (U : UnicodeData) (text : list N) (n : Z) :
  1 ≤ n → n ≤ len (split U text) →
  ∃ chunks,
    split_text U text n = Ok chunks
    ∧ Forall (fun chunk => chunk ≠ []) chunks
    ∧ join [SPACE] chunks = join [SPACE] (split U text).
Proof.
  intros Hn Hle.
  destruct (split_text_sized U text n Hn) as (parts & -> & _ & Hcat & Hw & Hsz).
  set (W := len (split U text)) in *.
  assert (1 ≤ W / n) as Hcs by (apply Z.div_le_lower_bound; lia).
  assert (n * (W / n) ≤ W) as Hmul by (apply Z.mul_div_le; lia).
  assert (Forall (fun p : list (list N) => p ≠ []) parts) as Hne.
  { apply Forall_lookup. intros i p Hi. apply Hsz in Hi.
    intros ->. unfold len in Hi at 1. simpl in Hi.
    destruct (Z.of_nat i =? n - 1); nia. }
  eexists. split; [reflexivity|]. split.
  - apply Forall_map. apply Forall_forall. intros p Hp.
    rewrite Forall_forall in Hne, Hw.
    apply join_nil_inv; [by apply Hne|].
    eapply Forall_impl; [by apply Hw|]. by intros w [??].
  - by rewrite join_join_concat, Hcat.
Qed.

Lemma split_text_join_exact_witness :
  1 ≤ 2 ∧ 2 ≤ len (split py (of_string "cat sat mat")) ∧
  ∃ chunks,
    split_text py (of_string "cat sat mat") 2 = Ok chunks
    ∧ Forall (fun chunk => chunk ≠ []) chunks
    ∧ join [SPACE] chunks = join [SPACE] (split py (of_string "cat sat mat")).
Proof.
  assert (2 ≤ len (split py (of_string "cat sat mat"))) as Hle
    by (vm_compute; discriminate).
  split; [lia|]. split; [exact Hle|].
  apply (split_text_join_exact py (of_string "cat sat mat") 2); [lia|exact Hle].
Defined.

(** X4. A negative number of chunks is not refused by [split_text]: the
    loop does not run and the list of chunks is empty, whatever the text.
    [mapreduce] then stops with the [ValueError] of the thread pool. *)
Theorem negative_workers (U : UnicodeData) (n : Z) (order : list nat)
  (text : list N) :
  n < 0 →
  split_text U text n = Ok []
  ∧ mapreduce U n order text = Raise ValueError.
Proof.
  intros Hn.
  assert (∀ t, split_text U t n = Ok []) as Hs.
  { intros t. unfold split_text, floordiv, range.
    destruct (Z.eqb_spec n 0) as [|_]; [lia|]. simpl.
    by assert (Z.to_nat n = 0%nat) as -> by lia. }
  split; [apply Hs|].
  unfold mapreduce, map_phase. rewrite Hs. simpl.
  unfold ThreadPoolExecutor. by destruct (Z.leb_spec n 0); [|lia].
Qed.

Lemma negative_workers_witness :
  -2 < 0 ∧
  split_text py (of_string "cat sat mat") (-2) = Ok []
  ∧ mapreduce py (-2) [] (of_string "cat sat mat") = Raise ValueError.
Proof.
  split; [lia|].
  apply (negative_workers py (-2) [] (of_string "cat sat mat")). lia.
Defined.

(** ** Normalization, further *)

(** X5. For every text and every table the normalized text is in normal
    form for [split] and [join]: it is the list of its own words with one
    space between two words, so it has no white space at either end and no
    two white-space characters in a row. *)
Theorem clean_text_normal_form (U : UnicodeData) (text : list N) :
  join [SPACE] (split U (clean_text U text)) = clean_text U text
  ∧ Forall (is_word U) (split U (clean_text U text))
  ∧ single_spaced (nonspace U) (clean_text U text).
Proof.
  split; [|split].
  - rewrite split_clean_text. reflexivity.
  - apply split_words.
  - apply clean_text_single_spaced.
Qed.

(** X6. On ASCII text the normalized text has only the letters a to z, the
    underscore and the space: no digit, no capital letter and no other
    punctuation is left. *)
Theorem clean_text_ascii_alphabet (U : UnicodeData) (text : list N) :
  ascii_exact U → Forall is_ascii text →
  Forall (fun c => lower_letter c = true ∨ c = UNDERSCORE ∨ c = SPACE)
         (clean_text U text).
Proof.
  intros HU Ht.
  destruct (clean_text_tokens_ascii U HU text Ht) as (tokens & -> & Htok).
  apply Forall_forall. intros c Hc.
  apply join_chars in Hc as [Hc|(t & Ht' & Hc)].
  - apply list_elem_of_singleton in Hc. tauto.
  - rewrite Forall_forall in Htok. destruct (Htok t Ht') as [_ Hall].
    rewrite Forall_forall in Hall. destruct (Hall c Hc); tauto.
Qed.

Lemma clean_text_ascii_alphabet_witness :
  ascii_exact py
  ∧ Forall is_ascii (of_string "Tea_4 2: CUPS!")
  ∧ Forall (fun c => lower_letter c = true ∨ c = UNDERSCORE ∨ c = SPACE)
           (clean_text py (of_string "Tea_4 2: CUPS!")).
Proof.
  assert (ascii_exact py) as HU by (by split).
  assert (Forall is_ascii (of_string "Tea_4 2: CUPS!")) as Ht
    by (repeat (constructor; [by vm_compute|]); constructor).
  split; [exact HU|]. split; [exact Ht|].
  exact (clean_text_ascii_alphabet py (of_string "Tea_4 2: CUPS!") HU Ht).
Defined.

(** X7. The empty text: it normalizes to the empty text, [split_text] cuts
    it into [n] empty chunks, and the run returns the empty table. *)
Theorem empty_text (U : UnicodeData) (n : Z) (order : list nat) :
  ascii_exact U → 1 ≤ n →
  clean_text U [] = []
  ∧ split_text U (clean_text U []) n = Ok (replicate (Z.to_nat n) [])
  ∧ mapreduce U n order [] = Ok ∅.
Proof.
  intros HU Hn.
  assert (clean_text U [] = []) as Hc.
  { unfold clean_text. simpl. by rewrite (ascii_lower U HU []). }
  split; [done|]. rewrite Hc. split.
  - destruct (split_text_sized U [] n Hn) as (parts & -> & Hlen & Hcat & _).
    f_equal. unfold len in Hlen.
    assert (Z.to_nat n = length parts) as -> by lia.
    apply map_replicate. intros p Hp.
    apply list_elem_of_In in Hp.
    assert (Forall (fun q : list (list N) => q = []) parts) as Hall
      by (by apply concat_nil_Forall).
    rewrite Forall_forall in Hall. by rewrite (Hall p Hp).
  - rewrite mapreduce_reference by done. by rewrite Hc.
Qed.

Lemma empty_text_witness :
  ascii_exact py ∧ 1 ≤ 4 ∧
  clean_text py [] = []
  ∧ split_text py (clean_text py []) 4 = Ok (replicate (Z.to_nat 4) [])
  ∧ mapreduce py 4 [2%nat] [] = Ok ∅.
Proof.
  assert (ascii_exact py) as HU by (by split).
  split; [exact HU|]. split; [lia|].
  apply (empty_text py 4 [2%nat] HU). lia.
Defined.

(** ** Map and reduce, further *)

Lemma emit_keys (w : list N) (ws : list (list N)) :
  w ∈ (emit ws).*1 ↔ w ∈ ws ∧ eligible w = true.
Proof.
  rewrite list_elem_of_fmap. unfold emit. split.
  - intros (wc & -> & Hwc). rewrite list_elem_of_In, in_flat_map in Hwc.
    destruct Hwc as (x & Hx & Hwc). apply list_elem_of_In in Hx.
    destruct (eligible x) eqn:He; [|done]. by destruct Hwc as [<-|[]].
  - intros [Hw He]. exists (w, 1). split; [done|].
    rewrite list_elem_of_In, in_flat_map. exists w.
    rewrite <- list_elem_of_In. split; [done|]. rewrite He. by left.
Qed.

Lemma total_count_emit (w : list N) (ws : list (list N)) :
  eligible w = true → total_count w (emit ws) = occurrences w ws.
Proof.
  intros He. unfold occurrences, len.
  induction ws as [|x ws IH]; [done|].
  change (emit (x :: ws))
    with ((if eligible x then [(x, 1)] else []) ++ emit ws).
  destruct (decide (x = w)) as [->|Hne].
  - rewrite He, filter_cons_True by done. simpl.
    destruct (decide (w = w)); [|done]. rewrite IH. lia.
  - rewrite filter_cons_False by done.
    destruct (eligible x); simpl; [|done].
    by destruct (decide (x = w)).
Qed.

(** X8. The table counts words: with at least one worker, a word is a key
    exactly when it is eligible and stands in the normalized text, and its
    value is the number of times it stands there. *)
Theorem word_count_correct (U : UnicodeData) (num_workers : Z)
  (order : list nat) (text : list N) :
  1 ≤ num_workers →
  ∃ table,
    mapreduce U num_workers order text = Ok table
    ∧ ∀ word,
        table !! word
        = if decide (word ∈ split U (clean_text U text)
                     ∧ eligible word = true)
          then Some (occurrences word (split U (clean_text U text)))
          else None.
Proof.
  intros Hn. eexists. split; [by apply mapreduce_reference|].
  intros word. rewrite reduce_function_lookup, map_function_emit.
  destruct (decide (word ∈ (emit _).*1)) as [Hin|Hout];
    rewrite emit_keys in *.
  - rewrite decide_True by done. destruct Hin as [_ He].
    by rewrite total_count_emit.
  - by rewrite decide_False.
Qed.

Lemma word_count_correct_witness :
  1 ≤ 3 ∧
  ∃ table,
    mapreduce py 3 [1; 1]%nat (of_string "The cat sat on the mat. The cat ran.")
    = Ok table
    ∧ ∀ word,
        table !! word
        = if decide (word ∈ split py (clean_text py
                       (of_string "The cat sat on the mat. The cat ran."))
                     ∧ eligible word = true)
          then Some (occurrences word
                       (split py (clean_text py
                          (of_string "The cat sat on the mat. The cat ran."))))
          else None.
Proof.
  split; [lia|].
  apply (word_count_correct py 3 [1; 1]%nat
           (of_string "The cat sat on the mat. The cat ran.")).
  lia.
Defined.

(** X9. What [reduce_function] returns for any list of pairs: the keys are
    the words of the pairs, and the value of a key is the sum of the counts
    paired with it, also when that sum is zero or negative. *)
Theorem reduce_function_spec (word_counts : list (list N * Z)) :
  dom (reduce_function word_counts) = list_to_set word_counts.*1
  ∧ ∀ word,
      word ∈ word_counts.*1 →
      reduce_function word_counts !! word
      = Some (total_count word word_counts).
Proof.
  split.
  - apply set_eq. intros w.
    rewrite elem_of_dom, elem_of_list_to_set, reduce_function_lookup.
    destruct (decide _); [by split; eauto|].
    split; [by intros [??]|done].
  - intros w Hw. rewrite reduce_function_lookup. by rewrite decide_True.
Qed.

Lemma total_count_app (w : list N) (l1 l2 : list (list N * Z)) :
  total_count w (l1 ++ l2) = total_count w l1 + total_count w l2.
Proof.
  induction l1 as [|[k c] l1 IH]; simpl; [done|].
  destruct (decide (k = w)); lia.
Qed.

(** X10. Reducing two lists of pairs one after the other is merging their
    tables by adding the counts key by key: partial counts can be combined
    afterwards. *)
Theorem reduce_function_app (l1 l2 : list (list N * Z)) :
  reduce_function (l1 ++ l2)
  = union_with (fun a b => Some (a + b))
      (reduce_function l1) (reduce_function l2).
Proof.
  apply map_eq. intros w.
  rewrite lookup_union_with, !reduce_function_lookup, fmap_app.
  rewrite total_count_app.
  destruct (decide (w ∈ l1.*1)) as [H1|H1],
           (decide (w ∈ l2.*1)) as [H2|H2]; simpl.
  - rewrite decide_True by (apply elem_of_app; tauto). done.
  - rewrite decide_True by (apply elem_of_app; tauto).
    rewrite (total_count_absent w l2) by done. f_equal. lia.
  - rewrite decide_True by (apply elem_of_app; tauto).
    rewrite (total_count_absent w l1) by done. done.
  - rewrite decide_False; [done|]. rewrite elem_of_app. tauto.
Qed.

(** X11. The map stage distributes over the chunks: the pairs of the
    chunks joined with spaces are the pairs of the first chunk, then those
    of the second, and so on. *)
Theorem map_function_join (U : UnicodeData) (chunks : list (list N)) :
  map_function U (join [SPACE] chunks)
  = concat (map (map_function U) chunks).
Proof.
  rewrite map_function_emit, split_join_concat, emit_concat, map_map.
  reflexivity.
Qed.

(** ** The table in insertion order *)

Lemma add_item_keys (items : list (list N * Z)) (w : list N) (c : Z) :
  (add_item items w c).*1
  = if decide (w ∈ items.*1) then items.*1 else items.*1 ++ [w].
Proof.
  induction items as [|[k v] items IH]; [done|]. cbn [add_item].
  destruct (decide (k = w)) as [->|Hne]; rewrite !fmap_cons; cbn [fst].
  - rewrite decide_True by constructor. done.
  - rewrite IH. destruct (decide (w ∈ items.*1)) as [Hin|Hout].
    + rewrite decide_True by (by constructor). done.
    + rewrite decide_False; [done|]. rewrite elem_of_cons.
      intros [?|?]; [by subst|done].
Qed.

Lemma list_to_map_add_item (items : list (list N * Z)) (w : list N) (c : Z) :
  (list_to_map (add_item items w c) : gmap (list N) Z)
  = add_count (list_to_map items) (w, c).
Proof.
  unfold add_count. simpl.
  induction items as [|[k v] items IH]; [done|]. simpl.
  destruct (decide (k = w)) as [->|Hne]; simpl.
  - by rewrite lookup_insert_eq, insert_insert_eq.
  - rewrite IH, lookup_insert_ne by done. by apply insert_insert_ne.
Qed.

Lemma foldl_add_item (l items : list (list N * Z)) :
  (list_to_map (foldl (fun items wc => add_item items wc.1 wc.2) items l)
     : gmap (list N) Z)
  = foldl add_count (list_to_map items) l
  ∧ (NoDup items.*1 →
     NoDup (foldl (fun items wc => add_item items wc.1 wc.2) items l).*1)
  ∧ ∀ w, w ∈ (foldl (fun items wc => add_item items wc.1 wc.2) items l).*1
          ↔ w ∈ items.*1 ∨ w ∈ l.*1.
Proof.
  revert items. induction l as [|[k c] l IH]; intros items.
  { simpl. split; [done|]. split; [done|]. intros w.
    rewrite elem_of_nil. tauto. }
  simpl. destruct (IH (add_item items k c)) as (Hm & Hnd & Hk).
  split; [by rewrite Hm, list_to_map_add_item|]. split.
  - intros Hi. apply Hnd. rewrite add_item_keys.
    destruct (decide (k ∈ items.*1)); [done|].
    apply NoDup_app. split; [done|]. split; [|apply NoDup_singleton].
    intros x Hx Hx'. apply list_elem_of_singleton in Hx'. by subst.
  - intros w. rewrite Hk, add_item_keys, elem_of_cons.
    destruct (decide (k ∈ items.*1)) as [Hin|Hout].
    + split; [tauto|]. intros [?|[->|?]]; tauto.
    + rewrite elem_of_app, list_elem_of_singleton. tauto.
Qed.

(** X12. The items of the returned [dict]: read as a map they are the
    table, every word is listed once, and the words stand in the order in
    which they first occur in the pairs (one more pair adds its word at the
    end when the word is new, and moves nothing otherwise). *)
Theorem reduce_items_dict (word_counts : list (list N * Z)) :
  list_to_map (reduce_items word_counts) = reduce_function word_counts
  ∧ NoDup (reduce_items word_counts).*1
  ∧ ∀ wc,
      (reduce_items (word_counts ++ [wc])).*1
      = if decide (wc.1 ∈ word_counts.*1)
        then (reduce_items word_counts).*1
        else (reduce_items word_counts).*1 ++ [wc.1].
Proof.
  destruct (foldl_add_item word_counts []) as (Hm & Hnd & Hk).
  split; [exact Hm|]. split; [apply Hnd; constructor|].
  intros wc. unfold reduce_items. rewrite foldl_app. simpl.
  rewrite add_item_keys.
  destruct (decide (wc.1 ∈ word_counts.*1)) as [Hin|Hout].
  - rewrite decide_True; [done|]. apply Hk. by right.
  - rewrite decide_False; [done|]. rewrite Hk, elem_of_nil. tauto.
Qed.

(** ** [visualize_top_words] *)

Lemma insert_desc_Permutation x l : insert_desc x l ≡ₚ x :: l.
Proof.
  induction l as [|y l IH]; [done|]. simpl.
  destruct (x.2 <? y.2); [|done]. rewrite IH. apply perm_swap.
Qed.

Lemma sorted_desc_Permutation items : sorted_desc items ≡ₚ items.
Proof.
  induction items as [|x items IH]; [done|].
  simpl. by rewrite insert_desc_Permutation, IH.
Qed.

Lemma insert_desc_sorted x l :
  StronglySorted by_count_desc l → StronglySorted by_count_desc (insert_desc x l).
Proof.
  induction 1 as [|y l Hs IH Hy]; simpl.
  - repeat constructor.
  - destruct (Z.ltb_spec x.2 y.2).
    + constructor; [done|]. rewrite insert_desc_Permutation.
      constructor; [unfold by_count_desc; lia|done].
    + constructor; [by constructor|]. constructor; [done|].
      eapply Forall_impl; [exact Hy|]. unfold by_count_desc. intros; lia.
Qed.

Lemma sorted_desc_sorted items : StronglySorted by_count_desc (sorted_desc items).
Proof.
  induction items as [|x items IH]; [constructor|].
  by apply insert_desc_sorted.
Qed.

Lemma insert_desc_stable (v : Z) x l :
  filter (fun p : list N * Z => p.2 = v) (insert_desc x l)
  = filter (fun p : list N * Z => p.2 = v) (x :: l).
Proof.
  induction l as [|y l IH]; [done|]. simpl.
  destruct (Z.ltb_spec x.2 y.2) as [Hlt|]; [|done].
  rewrite (filter_cons _ y), IH, !(filter_cons _ x), (filter_cons _ y).
  destruct (decide (x.2 = v)), (decide (y.2 = v)); try done. lia.
Qed.

Lemma sorted_desc_stable (v : Z) items :
  filter (fun p : list N * Z => p.2 = v) (sorted_desc items)
  = filter (fun p : list N * Z => p.2 = v) items.
Proof.
  induction items as [|x items IH]; [done|]. simpl.
  by rewrite insert_desc_stable, !(filter_cons _ x), IH.
Qed.

Lemma slice_prefix {A} (l : list A) (k : Z) :
  0 ≤ k → slice l 0 k = take (Z.to_nat k) l.
Proof.
  intros Hk. unfold slice, slice_bound. simpl.
  destruct (Z.ltb_spec k 0); [lia|].
  rewrite (Z.min_l 0) by (unfold len; lia).
  change (Z.to_nat 0) with 0%nat. rewrite drop_0, Z.sub_0_r.
  destruct (Z.le_gt_cases k (len l)).
  - by rewrite Z.min_l.
  - rewrite Z.min_r by lia. unfold len in *.
    rewrite !take_ge; [done|lia|lia].
Qed.

Lemma top_words_take items (top_n : Z) :
  0 ≤ top_n → top_words items top_n = take (Z.to_nat top_n) (sorted_desc items).
Proof. intros Hn. unfold top_words. by apply slice_prefix. Qed.

(** X13. For [top_n >= 0] the selection is a top-[top_n] list: it has
    [min(top_n, len(items))] entries, in decreasing order of count, and
    every entry left out has a count no greater than each selected one. *)
Theorem top_words_select (items : list (list N * Z)) (top_n : Z) :
  0 ≤ top_n →
  ∃ rest,
    top_words items top_n ++ rest ≡ₚ items
    ∧ len (top_words items top_n) = Z.min top_n (len items)
    ∧ StronglySorted by_count_desc (top_words items top_n)
    ∧ ∀ a b, a ∈ top_words items top_n → b ∈ rest → b.2 ≤ a.2.
Proof.
  intros Hn. rewrite top_words_take by done.
  exists (drop (Z.to_nat top_n) (sorted_desc items)).
  pose proof (sorted_desc_sorted items) as Hs.
  rewrite <- (take_drop (Z.to_nat top_n) (sorted_desc items)) in Hs.
  apply StronglySorted_app in Hs as (Hdom & Hs1 & _).
  split; [by rewrite take_drop, sorted_desc_Permutation|]. split.
  - unfold len. rewrite length_take, (Permutation_length (sorted_desc_Permutation items)).
    lia.
  - split; [done|]. intros a b Ha Hb. by apply Hdom.
Qed.

Lemma top_words_select_witness :
  0 ≤ 2 ∧
  ∃ rest,
    top_words [(of_string "sat", 1); (of_string "cat", 3); (of_string "mat", 2)] 2
      ++ rest
    ≡ₚ [(of_string "sat", 1); (of_string "cat", 3); (of_string "mat", 2)]
    ∧ len (top_words
             [(of_string "sat", 1); (of_string "cat", 3); (of_string "mat", 2)] 2)
      = Z.min 2
          (len [(of_string "sat", 1); (of_string "cat", 3); (of_string "mat", 2)])
    ∧ StronglySorted by_count_desc
        (top_words
           [(of_string "sat", 1); (of_string "cat", 3); (of_string "mat", 2)] 2)
    ∧ ∀ a b,
        a ∈ top_words
              [(of_string "sat", 1); (of_string "cat", 3); (of_string "mat", 2)] 2 →
        b ∈ rest → b.2 ≤ a.2.
Proof.
  split; [lia|].
  apply (top_words_select
           [(of_string "sat", 1); (of_string "cat", 3); (of_string "mat", 2)] 2).
  lia.
Defined.

(** X14. Ties are broken by the order of the items: for [top_n >= 0] and
    every count, the selected words with that count are the first words of
    the [dict] with that count, in the order of the [dict]. *)
Theorem top_words_ties (items : list (list N * Z)) (top_n : Z) (v : Z) :
  0 ≤ top_n →
  filter (fun p : list N * Z => p.2 = v) (top_words items top_n)
  `prefix_of` filter (fun p : list N * Z => p.2 = v) items.
Proof.
  intros Hn. rewrite top_words_take by done.
  exists (filter (fun p : list N * Z => p.2 = v)
            (drop (Z.to_nat top_n) (sorted_desc items))).
  by rewrite <- filter_app, take_drop, sorted_desc_stable.
Qed.

Lemma top_words_ties_witness :
  0 ≤ 2 ∧
  filter (fun p : list N * Z => p.2 = 1)
    (top_words
       [(of_string "sat", 1); (of_string "cat", 2); (of_string "mat", 1);
        (of_string "ran", 1)] 2)
  `prefix_of`
  filter (fun p : list N * Z => p.2 = 1)
    [(of_string "sat", 1); (of_string "cat", 2); (of_string "mat", 1);
     (of_string "ran", 1)].
Proof.
  split; [lia|].
  apply (top_words_ties
           [(of_string "sat", 1); (of_string "cat", 2); (of_string "mat", 1);
            (of_string "ran", 1)] 2 1).
  lia.
Defined.

(** X15. A negative [top_n] is not refused: the slice then leaves out the
    last [-top_n] entries of the sorted list, so [len(items) + top_n]
    entries are selected, or none. *)
Theorem top_words_negative (items : list (list N * Z)) (top_n : Z) :
  top_n < 0 →
  top_words items top_n
  = take (Z.to_nat (len items + top_n)) (sorted_desc items)
  ∧ len (top_words items top_n) = Z.max 0 (len items + top_n).
Proof.
  intros Hn.
  assert (len (sorted_desc items) = len items) as Hlen
    by (unfold len; by rewrite (Permutation_length (sorted_desc_Permutation items))).
  assert (top_words items top_n
          = take (Z.to_nat (len items + top_n)) (sorted_desc items)) as Heq.
  { unfold top_words, slice, slice_bound. rewrite Hlen. simpl.
    destruct (Z.ltb_spec top_n 0); [|lia].
    rewrite (Z.min_l 0) by (unfold len; lia).
    change (Z.to_nat 0) with 0%nat. rewrite drop_0, Z.sub_0_r.
    f_equal. lia. }
  split; [done|]. rewrite Heq. unfold len in *. rewrite length_take. lia.
Qed.

Lemma top_words_negative_witness :
  -1 < 0 ∧
  top_words [(of_string "sat", 1); (of_string "cat", 3); (of_string "mat", 2)] (-1)
  = take (Z.to_nat
            (len [(of_string "sat", 1); (of_string "cat", 3); (of_string "mat", 2)]
             + -1))
      (sorted_desc
         [(of_string "sat", 1); (of_string "cat", 3); (of_string "mat", 2)])
  ∧ len (top_words
           [(of_string "sat", 1); (of_string "cat", 3); (of_string "mat", 2)] (-1))
    = Z.max 0
        (len [(of_string "sat", 1); (of_string "cat", 3); (of_string "mat", 2)]
         + -1).
Proof.
  split; [lia|].
  apply (top_words_negative
           [(of_string "sat", 1); (of_string "cat", 3); (of_string "mat", 2)] (-1)).
  lia.
Defined.

(** X16. For [top_n >= 1] the function returns without drawing exactly
    when the table is empty.  Otherwise it draws the words and the counts
    of the selected items, as many words as frequencies and at least one;
    the first word and the first frequency are an item of the table, and
    that frequency is the greatest count of the table, so
    [max(frequencies)] is defined. *)
Theorem visualize_top_words_draws (items : list (list N * Z)) (top_n : Z) :
  1 ≤ top_n →
  (visualize_top_words items top_n = None ↔ items = [])
  ∧ ∀ words frequencies,
      visualize_top_words items top_n = Some (words, frequencies) →
      words = map fst (top_words items top_n)
      ∧ frequencies = map snd (top_words items top_n)
      ∧ len words = len frequencies
      ∧ ∃ w f, head words = Some w ∧ head frequencies = Some f
               ∧ (w, f) ∈ items
               ∧ ∀ p, p ∈ items → p.2 ≤ f.
Proof.
  intros Hn. unfold visualize_top_words.
  rewrite top_words_take by lia.
  pose proof (sorted_desc_Permutation items) as Hp.
  pose proof (sorted_desc_sorted items) as Hs.
  assert (Z.to_nat top_n = S (Z.to_nat (top_n - 1))) as -> by lia.
  destruct (sorted_desc items) as [|p0 rest] eqn:Hsd.
  - apply Permutation_nil_l in Hp. subst items. simpl. split; [done|]. done.
  - simpl. split.
    + split; [done|]. intros ->. by apply Permutation_nil_r in Hp.
    + intros words frequencies [= <- <-].
      split; [done|]. split; [done|]. unfold len. simpl.
      rewrite !length_map. split; [done|].
      exists p0.1, p0.2. split; [done|]. split; [done|]. split.
      { rewrite <- Hp. destruct p0. constructor. }
      intros p Hin.
      rewrite <- Hp in Hin. apply elem_of_cons in Hin as [->|Hin]; [lia|].
      apply StronglySorted_inv in Hs as [_ Hall].
      rewrite Forall_forall in Hall. by apply Hall.
Qed.

Lemma visualize_top_words_draws_witness :
  1 ≤ 15 ∧
  ((visualize_top_words [(of_string "sat", 1); (of_string "cat", 3)] 15 = None
    ↔ [(of_string "sat", 1); (of_string "cat", 3)] = [])
   ∧ ∀ words frequencies,
       visualize_top_words [(of_string "sat", 1); (of_string "cat", 3)] 15
       = Some (words, frequencies) →
       words = map fst (top_words [(of_string "sat", 1); (of_string "cat", 3)] 15)
       ∧ frequencies
         = map snd (top_words [(of_string "sat", 1); (of_string "cat", 3)] 15)
       ∧ len words = len frequencies
       ∧ ∃ w f, head words = Some w ∧ head frequencies = Some f
                ∧ (w, f) ∈ [(of_string "sat", 1); (of_string "cat", 3)]
                ∧ ∀ p, p ∈ [(of_string "sat", 1); (of_string "cat", 3)] → p.2 ≤ f).
Proof.
  split; [lia|].
  apply (visualize_top_words_draws
           [(of_string "sat", 1); (of_string "cat", 3)] 15).
  lia.
Defined.

(** X17. What is drawn is true: for [top_n >= 0], every selected word of
    the items of [reduce_function]'s result carries the count the table
    has for it, and no word is selected twice. *)
Theorem top_words_of_table (word_counts : list (list N * Z)) (top_n : Z) :
  0 ≤ top_n →
  NoDup (top_words (reduce_items word_counts) top_n).*1
  ∧ ∀ word count,
      (word, count) ∈ top_words (reduce_items word_counts) top_n →
      reduce_function word_counts !! word = Some count.
Proof.
  intros Hn. rewrite top_words_take by done.
  destruct (foldl_add_item word_counts []) as (Hm & Hnd & _).
  fold (reduce_items word_counts) in Hm, Hnd.
  specialize (Hnd (NoDup_nil_2 (A:=list N))).
  pose proof (sorted_desc_Permutation (reduce_items word_counts)) as Hp.
  split.
  - assert (NoDup (sorted_desc (reduce_items word_counts)).*1) as Hs
      by (by rewrite Hp).
    rewrite <- (take_drop (Z.to_nat top_n) (sorted_desc _)), fmap_app in Hs.
    by apply NoDup_app in Hs as [? _].
  - intros word count Hin.
    change (list_to_map (reduce_items word_counts)
            = reduce_function word_counts) in Hm.
    rewrite <- Hm.
    apply elem_of_list_to_map; [done|].
    rewrite <- Hp. apply elem_of_take in Hin as (i & Hi & _).
    by eapply list_elem_of_lookup_2.
Qed.

Lemma top_words_of_table_witness :
  0 ≤ 1 ∧
  NoDup (top_words
           (reduce_items
              [(of_string "cat", 1); (of_string "mat", 1); (of_string "cat", 1)])
           1).*1
  ∧ ∀ word count,
      (word, count)
      ∈ top_words
          (reduce_items
             [(of_string "cat", 1); (of_string "mat", 1); (of_string "cat", 1)])
          1 →
      reduce_function
        [(of_string "cat", 1); (of_string "mat", 1); (of_string "cat", 1)]
      !! word = Some count.
Proof.
  split; [lia|].
  apply (top_words_of_table
           [(of_string "cat", 1); (of_string "mat", 1); (of_string "cat", 1)] 1).
  lia.
Defined.

(** ** The statistics of [main] *)

Lemma occurrences_absent (w : list N) (ws : list (list N)) :
  w ∉ ws → occurrences w ws = 0.
Proof.
  intros Hw. unfold occurrences, len.
  induction ws as [|x ws IH]; [done|].
  apply not_elem_of_cons in Hw as [Hne Hw].
  rewrite filter_cons_False by congruence. by apply IH.
Qed.

(** X18. [main] runs the analyzer with four workers and lists as rare the
    words whose count is one.  Whatever the completion order of the
    workers, a word is listed exactly when it is eligible and stands once
    in the normalized text. *)
Theorem rare_words_spec (U : UnicodeData) (order : list nat) (text : list N) :
  ∃ pairs,
    map_phase U 4 order text = Ok pairs
    ∧ mapreduce U 4 order text = Ok (list_to_map (reduce_items pairs))
    ∧ ∀ word,
        word ∈ rare_words (reduce_items pairs)
        ↔ eligible word = true
          ∧ occurrences word (split U (clean_text U text)) = 1.
Proof.
  destruct (mapreduce_ok U 4 order text) as (pairs & Hm & Hp & Hr); [lia|].
  destruct (foldl_add_item pairs []) as (Hmap & Hnd & _).
  change (list_to_map (reduce_items pairs) = reduce_function pairs) in Hmap.
  fold (reduce_items pairs) in Hnd. specialize (Hnd (NoDup_nil_2 (A:=list N))).
  exists pairs. split; [done|]. split; [by rewrite Hmap|].
  intros word. set (ws := split U (clean_text U text)).
  assert (word ∈ rare_words (reduce_items pairs)
          ↔ reduce_function pairs !! word = Some 1) as ->.
  { rewrite <- Hmap. unfold rare_words. split.
    - intros Hin. apply list_elem_of_In, in_map_iff in Hin as ([w c] & <- & Hin).
      apply list_elem_of_In, list_elem_of_filter in Hin as [Hc Hin].
      simpl in *. subst c. by apply elem_of_list_to_map.
    - intros Hl. apply elem_of_list_to_map in Hl; [|done].
      apply list_elem_of_In, in_map_iff. exists (word, 1). split; [done|].
      apply list_elem_of_In, list_elem_of_filter. by split. }
  rewrite (reduce_function_Permutation _ _ Hp).
  rewrite reduce_function_lookup, map_function_emit. fold ws.
  destruct (decide (word ∈ (emit ws).*1)) as [Hin|Hout];
    rewrite emit_keys in *.
  - destruct Hin as [Hw He]. rewrite total_count_emit by done.
    split; [by intros [= ->]|]. by intros [_ ->].
  - split; [done|]. intros [He Ho]. destruct Hout. split; [|done].
    destruct (decide (word ∈ ws)); [done|].
    rewrite occurrences_absent in Ho by done. lia.
Qed.
